(** * Stargazer: the starred-repository fetcher and its grouping stage

    A shallow embedding of the GraphQL fetch loop ([DefaultFetchStars]), the
    rate-limit state file and the [generate] pipeline of the stargazer
    command, followed by the properties of fetching, filtering, grouping
    and sorting.

    Conventions of the embedding
    - Go [string] is [string] (a sequence of bytes); Go [int] is [Z] and
      arithmetic on it wraps to 64 bits ([int_wrap]).
    - [time.Time] is an instant in nanoseconds ([Z]); [time.Duration] is [Z].
    - [map[string][]Star] is [gmap string (list Star)]; a nil map reads like
      the empty map and is the empty map here.
    - The outside world (wall clock, token-bucket limiter, GraphQL endpoint,
      working directory) is explicit state, see [World]. *)

From Stdlib Require Import ZArith Ascii Sorting.Sorted Sorting.Permutation.
From stdpp Require Import gmap strings list fin_maps sorting.

Local Open Scope Z_scope.

(** ** Go's [strings] package, on 7-bit input *)

Module strings.

(** [unicode.ToLower] on one byte: 'A'..'Z' move to 'a'..'z'. *)
Definition lower_byte (c : ascii) : ascii :=
  let n := N_of_ascii c in
  if ((65 <=? n) && (n <=? 90))%N then ascii_of_N (n + 32) else c.

(** [strings.ToLower].  Go lowers an all-ASCII string byte by byte; only
    that path is modelled, bytes above 127 are kept as they are. *)
Fixpoint ToLower (s : string) : string :=
  match s with
  | EmptyString => EmptyString
  | String c s' => String (lower_byte c) (ToLower s')
  end.

(** [strings.Contains s substr]. *)
Fixpoint Contains (s substr : string) : bool :=
  String.prefix substr s ||
  match s with
  | EmptyString => false
  | String _ s' => Contains s' substr
  end.

(** Go's [<] on strings: lexicographic on bytes. *)
Definition lt (a b : string) : bool := String.ltb a b.

(** Whether the byte [c] occurs in [cutset]. *)
Fixpoint in_cutset (c : ascii) (cutset : string) : bool :=
  match cutset with
  | EmptyString => false
  | String d rest => Ascii.eqb c d || in_cutset c rest
  end.

(** [strings.TrimLeft s cutset], for a 7-bit [cutset]. *)
Fixpoint TrimLeft (s cutset : string) : string :=
  match s with
  | EmptyString => EmptyString
  | String c s' => if in_cutset c cutset then TrimLeft s' cutset else s
  end.

(** [strings.TrimRight s cutset], for a 7-bit [cutset]. *)
Fixpoint TrimRight (s cutset : string) : string :=
  match s with
  | EmptyString => EmptyString
  | String c s' =>
      match TrimRight s' cutset with
      | EmptyString => if in_cutset c cutset then EmptyString else String c EmptyString
      | t => String c t
      end
  end.

(** [strings.Trim s cutset]. *)
Definition Trim (s cutset : string) : string := TrimLeft (TrimRight s cutset) cutset.

(** [strings.HasPrefix s prefix]. *)
Definition HasPrefix (s prefix : string) : bool := String.prefix prefix s.

(** [strings.SplitN s sep 2] for a one-byte separator: the part before the
    first separator and the part after it, or [s] alone when there is no
    separator. *)
Fixpoint SplitN_2 (s : string) (sep : ascii) : list string :=
  match s with
  | EmptyString => [EmptyString]
  | String c s' =>
      if Ascii.eqb c sep then [EmptyString; s']
      else match SplitN_2 s' sep with
           | first :: rest => String c first :: rest
           | [] => []
           end
  end.

End strings.

(** ** Go [int] *)

Definition int_wrap (z : Z) : Z := (z + 2 ^ 63) mod 2 ^ 64 - 2 ^ 63.

Definition is_int (z : Z) : Prop := - 2 ^ 63 <= z < 2 ^ 63.

Definition in_int (z : Z) : bool := (- 2 ^ 63 <=? z) && (z <? 2 ^ 63).

(** ** Data model *)

Definition Time := Z.
Definition Duration := Z.

Record RateLimitInfo := {
  Limit : Z;
  Remaining : Z;
  ResetAt : Time
}.

Record Star := {
  Url : string;
  Name : string;
  NameWithOwner : string;
  Description : string;
  License : string;
  LicenseUrl : string;
  Stars : Z;
  Archived : bool;
  StarredAt : Time
}.

(** The anonymous struct [LicenseInfo] of the query. *)
Record LicenseInfo := {
  li_Name : string;
  li_Nickname : string;
  li_Url : string
}.

(** One element of [Languages.Edges]: [struct{ Node struct{ Name string } }]. *)
Record LanguageEdge := { lang_Name : string }.

(** [Edges[i].Node] of [query.User.StarredRepositories]. *)
Record RepoNode := {
  n_Description : string;
  n_Languages : list LanguageEdge;
  n_LicenseInfo : LicenseInfo;
  n_IsArchived : bool;
  n_IsPrivate : bool;
  n_Name : string;
  n_NameWithOwner : string;
  n_StargazerCount : Z;
  n_Url : string
}.

Record RepoEdge := {
  e_StarredAt : Time;
  e_Node : RepoNode
}.

Record PageInfo := {
  EndCursor : string;
  HasNextPage : bool
}.

(** The package-level variable [query]; [IsOverLimit] and [TotalCount] are
    decoded but never read. *)
Record Query := {
  q_RateLimit : RateLimitInfo;
  q_IsOverLimit : bool;
  q_TotalCount : Z;
  q_Edges : list RepoEdge;
  q_PageInfo : PageInfo
}.

(** The configuration of a run. *)
Record Config := {
  GithubUser : string;
  GithubToken : string;
  OutputFile : string;
  OutputFormat : string;
  IgnoreRepos : list string;
  WithTOC : bool;
  WithStars : bool;
  WithLicense : bool;
  WithBackToTop : bool;
  Test : bool;
  RateLimit : Z
}.

(** ** Pure helpers of the fetcher *)

(** [determineLanguage]: the first reported language, the list being ordered
    by size by the query itself ([orderBy: {field: SIZE, direction: DESC}]). *)
Definition determineLanguage (languages : list LanguageEdge) : string :=
  match languages with
  | l :: _ => lang_Name l
  | [] => "Unknown"
  end.

(** [determineLicense]. *)
Definition determineLicense (licenseInfo : LicenseInfo) : string :=
  if negb (String.eqb (li_Nickname licenseInfo) "") then li_Nickname licenseInfo
  else if negb (String.eqb (li_Name licenseInfo) "")
          && negb (String.eqb (strings.ToLower (li_Name licenseInfo)) "other")
       then li_Name licenseInfo
       else "".

(** [isIgnored]; the package variable [ignored] is the first argument. *)
Fixpoint ignored_loop (ignored : list string) (name : string) : bool :=
  match ignored with
  | [] => false
  | i :: rest =>
      if String.eqb (strings.ToLower i) (strings.ToLower name) then true
      else ignored_loop rest name
  end.

Definition isIgnored (ignored : list string) (name : string) : bool :=
  if (length ignored =? 0)%nat then false else ignored_loop ignored name.

(** ** Errors

    Go [error] values, told apart by where they come from; [Error] is the
    text of [err.Error()]. *)

Inductive error :=
| ErrDeadlineExceeded                    (* [ctx.Err()] once the deadline has passed *)
| ErrWaitWouldExceed                     (* rate: the wait would outlast the context *)
| ErrQueryDeadline                       (* the HTTP round trip cut by the context *)
| ErrQuery (msg : string)                (* any other failure of [client.Query] *)
| ErrNotExist (path : string)            (* [os.ReadFile] on a missing file *)
| ErrPermission (path : string)          (* [os.WriteFile] refused *)
| ErrJSON (msg : string)                 (* [json.Marshal] / [json.Unmarshal] *)
| ErrFetchStars (cause : error).         (* [fmt.Errorf("failed to fetch stars: %v", err)] *)

Fixpoint Error (e : error) : string :=
  match e with
  | ErrDeadlineExceeded => "context deadline exceeded"
  | ErrWaitWouldExceed => "rate: Wait(n=1) would exceed context deadline"
  | ErrQueryDeadline => "Post https://api.github.com/graphql: context deadline exceeded"
  | ErrQuery msg => msg
  | ErrNotExist path => "open " +:+ path +:+ ": no such file or directory"
  | ErrPermission path => "open " +:+ path +:+ ": permission denied"
  | ErrJSON msg => "json: " +:+ msg
  | ErrFetchStars cause => "failed to fetch stars: " +:+ Error cause
  end.

(** The errors by which the context's deadline reaches the caller. *)
Definition is_timeout (e : error) : bool :=
  match e with
  | ErrDeadlineExceeded | ErrWaitWouldExceed | ErrQueryDeadline => true
  | _ => false
  end.

(** [isRateLimitError]. *)
Definition isRateLimitError (err : error) : bool :=
  strings.Contains (Error err) "API rate limit exceeded".

(** ** The rate-limit state file

    [encoding/json] is kept at the level of JSON documents: a file holds the
    document its bytes denote, or bytes that do not parse.  A string that
    is an RFC 3339 timestamp is kept as the instant it denotes. *)

#[local] Set Warnings "-register-all".

Inductive json :=
| JNull
| JBool (b : bool)
| JNumber (z : Z)
| JString (s : string)
| JStamp (t : Time)
| JObject (members : list (string * json)).

Inductive FileData :=
| Document (j : json)
| Malformed (raw : string).

Record FileSystem := {
  fs_files : gmap string FileData;
  fs_readonly : bool
}.

Definition os_ReadFile (name : string) (fs : FileSystem) : option FileData * option error :=
  match fs_files fs !! name with
  | Some d => (Some d, None)
  | None => (None, Some (ErrNotExist name))
  end.

Definition os_WriteFile (name : string) (data : FileData) (fs : FileSystem)
  : option error * FileSystem :=
  if fs_readonly fs then (Some (ErrPermission name), fs)
  else (None, {| fs_files := <[name := data]> (fs_files fs); fs_readonly := false |}).

(** [time.Time.MarshalJSON] refuses years outside 0..9999; the bounds are
    the first nanosecond of year 0 and of year 10000. *)
Definition year_0 : Time := -62167219200 * 1000000000.
Definition year_10000 : Time := 253402300800 * 1000000000.

(** The zero [time.Time], January 1 of year 1. *)
Definition zero_Time : Time := -62135596800 * 1000000000.

Definition zero_RateLimitInfo : RateLimitInfo :=
  {| Limit := 0; Remaining := 0; ResetAt := zero_Time |}.

(** [json.Marshal] of a [RateLimitInfo], by its struct tags. *)
Definition json_Marshal (info : RateLimitInfo) : option json * option error :=
  if (year_0 <=? ResetAt info) && (ResetAt info <? year_10000) then
    (Some (JObject [("limit", JNumber (Limit info));
                    ("remaining", JNumber (Remaining info));
                    ("reset_at", JStamp (ResetAt info))]), None)
  else (None, Some (ErrJSON "Time.MarshalJSON: year outside of range [0,9999]")).

Definition decode_int (j : json) (old : Z) : option Z :=
  match j with
  | JNull => Some old
  | JNumber z => if in_int z then Some z else None
  | _ => None
  end.

Definition decode_Time (j : json) (old : Time) : option Time :=
  match j with
  | JNull => Some old
  | JStamp t => Some t
  | _ => None
  end.

(** One member of the object: keys match the tags without regard to case,
    unknown keys are skipped, a value of the wrong kind is an error. *)
Definition decode_member (m : string * json) (info : RateLimitInfo) : option RateLimitInfo :=
  let key := strings.ToLower m.1 in
  if String.eqb key "limit" then
    z ← decode_int m.2 (Limit info);
    Some {| Limit := z; Remaining := Remaining info; ResetAt := ResetAt info |}
  else if String.eqb key "remaining" then
    z ← decode_int m.2 (Remaining info);
    Some {| Limit := Limit info; Remaining := z; ResetAt := ResetAt info |}
  else if String.eqb key "reset_at" then
    t ← decode_Time m.2 (ResetAt info);
    Some {| Limit := Limit info; Remaining := Remaining info; ResetAt := t |}
  else Some info.

Fixpoint decode_members (ms : list (string * json)) (info : RateLimitInfo)
  : option RateLimitInfo :=
  match ms with
  | [] => Some info
  | m :: ms' => info' ← decode_member m info; decode_members ms' info'
  end.

(** [json.Unmarshal(data, &info)]. *)
Definition json_Unmarshal (data : FileData) (info : RateLimitInfo)
  : RateLimitInfo * option error :=
  match data with
  | Malformed _ => (info, Some (ErrJSON "invalid character"))
  | Document JNull => (info, None)
  | Document (JObject ms) =>
      match decode_members ms info with
      | Some info' => (info', None)
      | None => (info, Some (ErrJSON "cannot unmarshal"))
      end
  | Document _ => (info, Some (ErrJSON "cannot unmarshal"))
  end.

Definition rate_limit_file : string := "rate_limit_info.json".

(** [loadRateLimitInfo]. *)
Definition loadRateLimitInfo (fs : FileSystem) : RateLimitInfo * option error :=
  match os_ReadFile rate_limit_file fs with
  | (Some data, None) =>
      match json_Unmarshal data zero_RateLimitInfo with
      | (info, None) => (info, None)
      | (_, Some err) => (zero_RateLimitInfo, Some err)
      end
  | (_, Some err) => (zero_RateLimitInfo, Some err)
  | (None, None) => (zero_RateLimitInfo, None)
  end.

(** [saveRateLimitInfo]. *)
Definition saveRateLimitInfo (info : RateLimitInfo) (fs : FileSystem)
  : option error * FileSystem :=
  match json_Marshal info with
  | (Some data, None) => os_WriteFile rate_limit_file (Document data) fs
  | (_, Some err) => (Some err, fs)
  | (None, None) => (None, fs)
  end.

(** ** The outside world *)

(** What the fetcher does to the world, in the order it happens. *)
Inductive Event :=
| EvQuery (cursor : string) (at_time : Time)   (* [client.Query] called with [vars["cursor"]] *)
| EvReply (q : Query)                          (* ... it returned [nil], [q] decoded *)
| EvFailure (err : error) (q : Query)          (* ... it returned [err], [query] holding [q] *)
| EvSleep (from until : Time)                  (* [time.Sleep] *)
| EvSave (info : RateLimitInfo).               (* [saveRateLimitInfo] *)

Record World := {
  w_now : Time;               (* the wall clock *)
  w_query : Query;            (* the package variable [query] *)
  w_fs : FileSystem;          (* the working directory *)
  w_trace : list Event
}.

Definition set_now (t : Time) (w : World) : World :=
  {| w_now := t; w_query := w_query w; w_fs := w_fs w; w_trace := w_trace w |}.

Definition set_query (q : Query) (w : World) : World :=
  {| w_now := w_now w; w_query := q; w_fs := w_fs w; w_trace := w_trace w |}.

Definition set_fs (fs : FileSystem) (w : World) : World :=
  {| w_now := w_now w; w_query := w_query w; w_fs := fs; w_trace := w_trace w |}.

Definition log_event (ev : Event) (w : World) : World :=
  {| w_now := w_now w; w_query := w_query w; w_fs := w_fs w; w_trace := w_trace w ++ [ev] |}.

(** The range of a [Duration], an [int64] count of nanoseconds. *)
Definition minDuration : Duration := -9223372036854775808.
Definition maxDuration : Duration := 9223372036854775807.

(** [time.Until] and [time.Sleep]; a sleep is not tied to any context.
    [time.Until(t)] is [t.Sub(time.Now())], and [Sub] gives the largest or
    the smallest [Duration] when the difference is out of range. *)
Definition time_Until (t : Time) (w : World) : Duration :=
  Z.max minDuration (Z.min maxDuration (t - w_now w)).

Definition time_Sleep (d : Duration) (w : World) : World :=
  log_event (EvSleep (w_now w) (w_now w + Z.max 0 d)) (set_now (w_now w + Z.max 0 d) w).

(** *** The token-bucket limiter ([golang.org/x/time/rate], burst 1)

    One token every [lim_interval]; [lim_next] is when the next token is
    there.  [rate.Every] of a non-positive interval is the infinite rate. *)
Record Limiter := {
  lim_interval : Duration;
  lim_next : Time
}.

Definition rate_NewLimiter (interval : Duration) (w : World) : Limiter :=
  {| lim_interval := interval; lim_next := w_now w |}.

(** [rateLimiter.Wait(ctx)]: fails at once when the context is done, fails
    without waiting when the token would come at or after the deadline,
    and otherwise blocks until the token is there. *)
Definition limiter_Wait (deadline : Time) (lim : Limiter) (w : World)
  : option error * Limiter * World :=
  if deadline <=? w_now w then (Some ErrDeadlineExceeded, lim, w)
  else if lim_interval lim <=? 0 then (None, lim, w)
  else
    let act := Z.max (w_now w) (lim_next lim) in
    if deadline <=? act then (Some ErrWaitWouldExceed, lim, w)
    else (None, {| lim_interval := lim_interval lim; lim_next := act + lim_interval lim |},
          set_now act w).

(** *** The GraphQL endpoint

    The answers of the remote side are a script, one entry per call of
    [client.Query]: how long the round trip takes and what comes back.  An
    answer with errors may still carry data, which is decoded into [query]
    before the error is returned; without data [query] keeps its content. *)
Inductive Response :=
| Reply (took : Duration) (q : Query)
| Failure (took : Duration) (msg : string) (q : option Query).

Definition took (r : Response) : Duration :=
  Z.max 0 match r with Reply t _ => t | Failure t _ _ => t end.

(** [client.Query(ctx, &query, vars)]: the HTTP client carries [ctx], so a
    round trip that is not over by the deadline ends there with the
    context's error. *)
Definition client_Query (deadline : Time) (cursor : string) (r : Response) (w : World)
  : option error * World :=
  let w := log_event (EvQuery cursor (w_now w)) w in
  if deadline <=? w_now w + took r
  then (Some ErrQueryDeadline,
        log_event (EvFailure ErrQueryDeadline (w_query w))
          (set_now (Z.max (w_now w) deadline) w))
  else
    let w := set_now (w_now w + took r) w in
    match r with
    | Reply _ q => (None, log_event (EvReply q) (set_query q w))
    | Failure _ msg None =>
        (Some (ErrQuery msg), log_event (EvFailure (ErrQuery msg) (w_query w)) w)
    | Failure _ msg (Some q) =>
        (Some (ErrQuery msg), log_event (EvFailure (ErrQuery msg) q) (set_query q w))
    end.

(** ** The fetcher *)

(** A call returns or panics. *)
Inductive Outcome (A : Type) :=
| Return (a : A)
| Panic (msg : string).
Arguments Return {A} a.
Arguments Panic {A} msg.

(** The three results of [FetchStarsFunc]. *)
Definition Result : Type := gmap string (list Star) * Z * option error.

(** The [Star] literal built for an edge. *)
Definition newStar (e : RepoEdge) : Star :=
  {| Url := n_Url (e_Node e);
     Name := n_Name (e_Node e);
     NameWithOwner := n_NameWithOwner (e_Node e);
     Description := n_Description (e_Node e);
     License := determineLicense (n_LicenseInfo (e_Node e));
     LicenseUrl := li_Url (n_LicenseInfo (e_Node e));
     Stars := n_StargazerCount (e_Node e);
     Archived := n_IsArchived (e_Node e);
     StarredAt := e_StarredAt e |}.

(** The condition of the [continue] in the loop over the edges. *)
Definition skipped (ignored : list string) (e : RepoEdge) : bool :=
  n_IsPrivate (e_Node e) || isIgnored ignored (n_NameWithOwner (e_Node e)).

(** The body of [for _, e := range query.User.StarredRepositories.Edges]. *)
Definition addEdge (ignored : list string) (acc : gmap string (list Star) * Z) (e : RepoEdge)
  : gmap string (list Star) * Z :=
  let '(stars, total) := acc in
  if skipped ignored e then (stars, total)
  else
    let total := int_wrap (total + 1) in
    let lng := determineLanguage (n_Languages (e_Node e)) in
    let stars :=
      match stars !! lng with
      | Some _ => stars
      | None => <[lng := []]> stars
      end in
    (<[lng := default [] (stars !! lng) ++ [newStar e]]> stars, total).

Definition addEdges (ignored : list string) (edges : list RepoEdge)
  (acc : gmap string (list Star) * Z) : gmap string (list Star) * Z :=
  fold_left (addEdge ignored) edges acc.

(** The [for] loop of [DefaultFetchStars].  Every turn that goes on takes
    one answer of the script; [None] says that the script ended before the
    loop did. *)
Fixpoint fetchLoop (ignored : list string) (deadline : Time) (script : list Response)
  (cursor : string) (lim : Limiter) (acc : gmap string (list Star) * Z) (w : World)
  {struct script} : option (Result * World) :=
  match limiter_Wait deadline lim w with
  | (Some err, _, w) => Some ((acc.1, acc.2, Some err), w)
  | (None, lim, w) =>
      match script with
      | [] => None
      | r :: script =>
          match client_Query deadline cursor r w with
          | (Some err, w) =>
              if isRateLimitError err then
                let w := time_Sleep (time_Until (ResetAt (q_RateLimit (w_query w))) w) w in
                fetchLoop ignored deadline script cursor lim acc w
              else Some ((acc.1, acc.2, Some err), w)
          | (None, w) =>
              let rateLimitInfo := q_RateLimit (w_query w) in
              let w := log_event (EvSave rateLimitInfo)
                         (set_fs (saveRateLimitInfo rateLimitInfo (w_fs w)).2 w) in
              let acc := addEdges ignored (q_Edges (w_query w)) acc in
              if negb (HasNextPage (q_PageInfo (w_query w)))
              then Some ((acc.1, acc.2, None), w)
              else fetchLoop ignored deadline script (EndCursor (q_PageInfo (w_query w)))
                     lim acc w
          end
      end
  end.

Definition minute : Duration := 60 * 1000000000.
Definition second : Duration := 1000000000.

(** [DefaultFetchStars].  [user] and [token] only travel to the remote
    side; the division [time.Second / time.Duration(rateLimit)] panics for
    a zero [rateLimit], before anything is fetched. *)
Definition DefaultFetchStars (ignored : list string) (script : list Response)
  (user token : string) (rateLimit : Z) (w : World) : option (Outcome Result * World) :=
  let deadline := w_now w + minute * 3 in
  if rateLimit =? 0 then Some (Panic "runtime error: integer divide by zero", w)
  else
    let rateLimiter := rate_NewLimiter (Z.quot second rateLimit) w in
    (* the loaded window is only logged *)
    let _rateLimitInfo := loadRateLimitInfo (w_fs w) in
    match fetchLoop ignored deadline script "" rateLimiter (∅, 0) w with
    | Some (res, w) => Some (Return res, w)
    | None => None
    end.

(** ** The [generate] pipeline *)

(** [sort.Slice].  Go sorts a slice of at most 12 elements by exactly this
    insertion sort and a longer one by pattern-defeating quicksort; both
    leave a permutation ordered by [less], and they can differ only in the
    order of elements that [less] does not separate.  [sift] is the inner
    loop: [x] moves left past every neighbour it is less than; [before] is
    the part left of [x], nearest element first. *)
Section Sort.
Context {A : Type} (less : A → A → bool).

Fixpoint sift (x : A) (before : list A) : list A :=
  match before with
  | y :: before' => if less x y then y :: sift x before' else x :: before
  | [] => [x]
  end.

Definition sort_Slice (data : list A) : list A :=
  reverse (fold_left (λ before x, sift x before) data []).
End Sort.

(** The [less] closure of [fetchAndProcessStars]. *)
Definition lessByName (a b : Star) : bool :=
  strings.lt (strings.ToLower (NameWithOwner a)) (strings.ToLower (NameWithOwner b)).

(** The zero [Star], the content of a slot made by [make([]Star, 1)]. *)
Definition zero_Star : Star :=
  {| Url := ""; Name := ""; NameWithOwner := ""; Description := ""; License := "";
     LicenseUrl := ""; Stars := 0; Archived := false; StarredAt := zero_Time |}.

(** [stars[k] = append(stars[k], s)]. *)
Definition appendTo (k : string) (s : Star) (stars : gmap string (list Star))
  : gmap string (list Star) :=
  <[k := default [] (stars !! k) ++ [s]]> stars.

(** [stars[k][0] = s]. *)
Definition setFirst (k : string) (s : Star) (stars : gmap string (list Star))
  : gmap string (list Star) :=
  <[k := <[0%nat := s]> (default [] (stars !! k))]> stars.

(** [testStars]; [time.Now()] reads the clock of the world. *)
Definition testStars (ignored : list string) (w : World) : gmap string (list Star) * Z :=
  let stars : gmap string (list Star) := ∅ in
  let stars := <["go" := [zero_Star]]> stars in
  let s := {| Url := "https://github.com/jmelfi/stargazer";
              Name := "stargazer";
              NameWithOwner := "jmelfi/stargazer";
              Description := "Creates awesome lists of your starred repositories";
              License := "MIT License";
              LicenseUrl := "";
              Stars := 1;
              Archived := false;
              StarredAt := w_now w |} in
  let stars := if negb (isIgnored ignored (NameWithOwner s))
               then setFirst "go" s stars else stars in
  let stars := <["markdown" := [zero_Star]]> stars in
  let s := {| Url := "https://github.com/jmelfi/stars";
              Name := "stars";
              NameWithOwner := "jmelfi/stars";
              Description := "A list of awesome repositories I starred";
              License := "MIT License";
              LicenseUrl := "";
              Stars := 1;
              Archived := false;
              StarredAt := w_now w |} in
  let stars := if negb (isIgnored ignored (NameWithOwner s))
               then setFirst "markdown" s stars else stars in
  let stars := <["C#" := []]> stars in
  let stars := <["C++" := []]> stars in
  let stars := appendTo "C#"
                 {| Url := "https://github.com/jmelfi/test";
                    Name := "test";
                    NameWithOwner := "jmelfi/test";
                    Description := "";
                    License := "MIT License";
                    LicenseUrl := "";
                    Stars := 1;
                    Archived := false;
                    StarredAt := w_now w |} stars in
  let stars := appendTo "C++"
                 {| Url := "https://github.com/jmelfi/test_2";
                    Name := "test_2";
                    NameWithOwner := "rverst/test_2";
                    Description := "Some description";
                    License := "";
                    LicenseUrl := "";
                    Stars := 1;
                    Archived := false;
                    StarredAt := w_now w |} stars in
  let stars := appendTo "C#"
                 {| Url := "https://github.com/jmelfi/test_3";
                    Name := "test_3";
                    NameWithOwner := "jmelfi/test_3";
                    Description := "";
                    License := "";
                    LicenseUrl := "";
                    Stars := 1;
                    Archived := false;
                    StarredAt := w_now w |} stars in
  (stars, 4).

(** The first half of [fetchAndProcessStars]: where the stars come from. *)
Definition fetchStars (ignored : list string) (script : list Response) (config : Config)
  (w : World) : option (Outcome Result * World) :=
  if Test config then
    let '(stars, total) := testStars ignored w in
    Some (Return (stars, total, None), w)
  else DefaultFetchStars ignored script (GithubUser config) (GithubToken config)
         (RateLimit config) w.

(** [fetchAndProcessStars].  The map [range] visits every key once, in no
    fixed order; each bucket is sorted on its own. *)
Definition fetchAndProcessStars (ignored : list string) (script : list Response)
  (config : Config) (w : World) : option (Outcome Result * World) :=
  match fetchStars ignored script config w with
  | Some (Return (stars, total, Some err), w) =>
      Some (Return (∅, 0, Some (ErrFetchStars err)), w)
  | Some (Return (stars, total, None), w) =>
      Some (Return (sort_Slice lessByName <$> stars, total, None), w)
  | Some (Panic msg, w) => Some (Panic msg, w)
  | None => None
  end.

(** The edges of the pages that came back without error, read off a
    trace. *)
Fixpoint fetched (trace : list Event) : list RepoEdge :=
  match trace with
  | [] => []
  | EvReply q :: trace' => q_Edges q ++ fetched trace'
  | _ :: trace' => fetched trace'
  end.

(** The number of records over all language buckets. *)
Definition bucket_count (stars : gmap string (list Star)) : nat :=
  map_fold (λ _ bucket n, (length bucket + n)%nat) 0%nat stars.

(** [a] may stand left of [b] in a slice sorted by [less]. *)
Definition ordered {A : Type} (less : A → A → bool) (a b : A) : Prop := less b a = false.

(** Ascending by the lower-case [NameWithOwner]. *)
Definition name_le (a b : Star) : Prop :=
  String.le (strings.ToLower (NameWithOwner a)) (strings.ToLower (NameWithOwner b)).

(** ** The fetch loop, turn by turn *)

(** The world right after a page came back: the window is saved, a failure
    to save being only logged. *)
Definition saved (w : World) : World :=
  log_event (EvSave (q_RateLimit (w_query w)))
    (set_fs (saveRateLimitInfo (q_RateLimit (w_query w)) (w_fs w)).2 w).

(** The world after the sleep that follows a quota error. *)
Definition slept (w : World) : World :=
  time_Sleep (time_Until (ResetAt (q_RateLimit (w_query w))) w) w.

(** When [time.Sleep(time.Until(t))], called at [from], is over: at [t]; at
    once if [t] is not ahead; after [maxDuration] if [t] is further ahead
    than that. *)
Definition wake (from t : Time) : Time := Z.max from (Z.min t (from + maxDuration)).

Global Arguments saved : simpl never.
Global Arguments slept : simpl never.

(** The runs of the loop as a relation: one rule per way a turn can go. *)
Inductive Run (ignored : list string) (deadline : Time) :
  list Response → string → Limiter → gmap string (list Star) * Z → World →
  Result * World → Prop :=
| Run_wait_failed script cursor lim acc w err lim1 w1 :
    limiter_Wait deadline lim w = (Some err, lim1, w1) →
    Run ignored deadline script cursor lim acc w ((acc.1, acc.2, Some err), w1)
| Run_query_failed r script cursor lim acc w lim1 w1 err w2 :
    limiter_Wait deadline lim w = (None, lim1, w1) →
    client_Query deadline cursor r w1 = (Some err, w2) →
    isRateLimitError err = false →
    Run ignored deadline (r :: script) cursor lim acc w ((acc.1, acc.2, Some err), w2)
| Run_quota_retry r script cursor lim acc w lim1 w1 err w2 res :
    limiter_Wait deadline lim w = (None, lim1, w1) →
    client_Query deadline cursor r w1 = (Some err, w2) →
    isRateLimitError err = true →
    Run ignored deadline script cursor lim1 acc (slept w2) res →
    Run ignored deadline (r :: script) cursor lim acc w res
| Run_last_page r script cursor lim acc w lim1 w1 w2 :
    limiter_Wait deadline lim w = (None, lim1, w1) →
    client_Query deadline cursor r w1 = (None, w2) →
    HasNextPage (q_PageInfo (w_query (saved w2))) = false →
    Run ignored deadline (r :: script) cursor lim acc w
      ((addEdges ignored (q_Edges (w_query (saved w2))) acc, None), saved w2)
| Run_next_page r script cursor lim acc w lim1 w1 w2 res :
    limiter_Wait deadline lim w = (None, lim1, w1) →
    client_Query deadline cursor r w1 = (None, w2) →
    HasNextPage (q_PageInfo (w_query (saved w2))) = true →
    Run ignored deadline script (EndCursor (q_PageInfo (w_query (saved w2)))) lim1
      (addEdges ignored (q_Edges (w_query (saved w2))) acc) (saved w2) res →
    Run ignored deadline (r :: script) cursor lim acc w res.

(** ** Counting *)

(** The edges that are neither private nor ignored. *)
Definition included (ignored : list string) (edges : list RepoEdge) : list RepoEdge :=
  List.filter (λ e, negb (skipped ignored e)) edges.

(** The count is the number of records in the buckets, as a Go [int]. *)
Definition counted (acc : gmap string (list Star) * Z) : Prop :=
  acc.2 = int_wrap (Z.of_nat (bucket_count acc.1)).

(** ** Concrete runs *)

Module Examples.

Definition empty_Query : Query :=
  {| q_RateLimit := zero_RateLimitInfo; q_IsOverLimit := false; q_TotalCount := 0;
     q_Edges := []; q_PageInfo := {| EndCursor := ""; HasNextPage := false |} |}.

(** A fresh process at some instant, in an empty, writable directory. *)
Definition start : Time := 1700000000 * second.

Definition world0 : World :=
  {| w_now := start; w_query := empty_Query;
     w_fs := {| fs_files := ∅; fs_readonly := false |}; w_trace := [] |}.

Definition config0 : Config :=
  {| GithubUser := "octocat"; GithubToken := "token"; OutputFile := "README.md";
     OutputFormat := "list"; IgnoreRepos := []; WithTOC := true; WithStars := true;
     WithLicense := true; WithBackToTop := false; Test := false; RateLimit := 5 |}.

Definition test_config : Config :=
  {| GithubUser := ""; GithubToken := ""; OutputFile := "README.md";
     OutputFormat := "list"; IgnoreRepos := []; WithTOC := true; WithStars := true;
     WithLicense := true; WithBackToTop := false; Test := true; RateLimit := 5 |}.

Definition repo (owner_name name lang : string) (li : LicenseInfo) (private : bool)
  : RepoEdge :=
  {| e_StarredAt := start - 3600 * second;
     e_Node := {| n_Description := ""; n_Languages := [ {| lang_Name := lang |} ];
                  n_LicenseInfo := li; n_IsArchived := false; n_IsPrivate := private;
                  n_Name := name; n_NameWithOwner := owner_name;
                  n_StargazerCount := 42;
                  n_Url := "https://github.com/" +:+ owner_name |} |}.

Definition mit : LicenseInfo :=
  {| li_Name := "MIT License"; li_Nickname := "";
     li_Url := "http://choosealicense.com/licenses/mit/" |}.

Definition window (remaining : Z) : RateLimitInfo :=
  {| Limit := 5000; Remaining := remaining; ResetAt := start + 30 * minute |}.

Definition page (edges : list RepoEdge) (cursor : string) (more : bool) (remaining : Z)
  : Query :=
  {| q_RateLimit := window remaining; q_IsOverLimit := false;
     q_TotalCount := Z.of_nat (length edges); q_Edges := edges;
     q_PageInfo := {| EndCursor := cursor; HasNextPage := more |} |}.

Definition tools : RepoEdge := repo "golang/tools" "tools" "Go" mit false.
Definition go : RepoEdge := repo "Golang/go" "go" "Go" mit false.
Definition secret : RepoEdge := repo "octocat/secret" "secret" "Go" mit true.

End Examples.

(** Loop states and answers of the remote side used below. *)
Module Scenario.
Import Examples.

Definition deadline0 : Time := start + minute * 3.
Definition limiter0 : Limiter := rate_NewLimiter (Z.quot second 5) world0.

(** A first page with a public and a private repository, and more to come. *)
Definition page1 : Response := Reply second (page [tools; secret] "c1" true 4999).
Definition page2 : Response := Reply second (page [go] "" false 4998).
Definition bad_gateway : Response := Failure second "502 Bad Gateway" None.

(** The quota is used up; the window is reset in half an hour or in a
    minute. *)
Definition quota (reset : Time) : Response :=
  Failure second "API rate limit exceeded for user ID 1"
    (Some {| q_RateLimit := {| Limit := 5000; Remaining := 0; ResetAt := reset |};
             q_IsOverLimit := false; q_TotalCount := 0; q_Edges := [];
             q_PageInfo := {| EndCursor := ""; HasNextPage := false |} |}).

(** The first call runs into the quota. *)
Definition world_wait : World := (limiter_Wait deadline0 limiter0 world0).2.
Definition world_quota : World :=
  (client_Query deadline0 "" (quota (start + minute)) world_wait).2.
Definition only_page : Response := Reply second (page [tools; secret] "" false 4999).

(** The same with a window that is reset in half an hour, long after the
    deadline. *)
Definition world_quota_late : World :=
  (client_Query deadline0 "" (quota (start + 30 * minute)) world_wait).2.
Definition run_quota_late : option (Outcome Result * World) :=
  DefaultFetchStars [] [quota (start + 30 * minute); only_page] "octocat" "token" 5 world0.

(** The fetch that meets the quota on its first call and then gets its
    only page. *)
Definition run_after_quota : option (Outcome Result * World) :=
  DefaultFetchStars [] [quota (start + minute); only_page] "octocat" "token" 5 world0.

(** The loop after [page1], about to ask for the page at "c1". *)
Definition world1 : World :=
  saved (client_Query deadline0 "" page1 (limiter_Wait deadline0 limiter0 world0).2).2.
Definition limiter1 : Limiter := (limiter_Wait deadline0 limiter0 world0).1.2.
Definition acc1 : gmap string (list Star) * Z := ({[ "Go" := [newStar tools] ]}, 1).

(** The call for that page fails. *)
Definition world1_wait : World := (limiter_Wait deadline0 limiter1 world1).2.
Definition limiter2 : Limiter := (limiter_Wait deadline0 limiter1 world1).1.2.
Definition world1_failed : World :=
  (client_Query deadline0 "c1" bad_gateway world1_wait).2.

End Scenario.

(** ** The [.env] file and the environment *)

(** The body of the loop of [parseEnvFile], on one line of the file. *)
Definition parseEnvLine (env : gmap string string) (text : string) : gmap string string :=
  let l := strings.Trim text " " in
  if String.eqb l "" || strings.HasPrefix l "#" then env
  else
    match strings.SplitN_2 l "=" with
    | [key; value] => <[strings.TrimRight key " " := strings.TrimLeft value " "]> env
    | _ => env
    end.

(** [parseEnvFile].  The argument is what opening and scanning the file
    gives: [None] when [os.Open] fails, otherwise the lines that
    [bufio.Scanner] yields, in order.  [s.Err()] is [nil] as long as
    [s.Scan()] holds, so the first test of the loop body never fires. *)
Definition parseEnvFile (opened : option (list string)) : gmap string string :=
  match opened with
  | None => ∅
  | Some lines => fold_left parseEnvLine lines ∅
  end.

(** [n] spaces. *)
Fixpoint spaces (n : nat) : string :=
  match n with
  | O => ""
  | S n' => String " " (spaces n')
  end.

(** The first byte of [s], if there is one, is not in [cutset]. *)
Definition head_free (cutset s : string) : Prop :=
  match s with
  | EmptyString => True
  | String c _ => strings.in_cutset c cutset = false
  end.

(** A key as [parseEnvFile] stores it: no space at either end, no "=", no
    "#" in front. *)
Definition env_key (key : string) : Prop :=
  strings.TrimLeft key " " = key ∧ strings.TrimRight key " " = key
  ∧ strings.Contains key "=" = false ∧ strings.HasPrefix key "#" = false.

(** A value as [parseEnvFile] stores it: no space at either end. *)
Definition env_value (value : string) : Prop :=
  strings.TrimLeft value " " = value ∧ strings.TrimRight value " " = value.

(** ** What the fetcher returns, read off the trace *)

(** The language an edge is filed under. *)
Definition language_of (e : RepoEdge) : string :=
  determineLanguage (n_Languages (e_Node e)).

(** The records of the edges of one language among the included ones, in
    the order of the edges. *)
Definition bucket_of (ignored : list string) (lng : string) (edges : list RepoEdge)
  : list Star :=
  newStar <$> filter (λ e, language_of e = lng) (included ignored edges).

(** What a map holds for a slice: no entry for an empty one. *)
Definition nonempty_bucket (bucket : list Star) : option (list Star) :=
  match bucket with
  | [] => None
  | _ => Some bucket
  end.

(** The cursor the loop holds after a stretch of trace: the end cursor of
    the last page that came back, or the one it held before. *)
Fixpoint cursor_after (cursor : string) (trace : list Event) : string :=
  match trace with
  | [] => cursor
  | EvReply q :: trace' => cursor_after (EndCursor (q_PageInfo q)) trace'
  | _ :: trace' => cursor_after cursor trace'
  end.

(** The time of a query event lies in a window. *)
Definition query_within (from deadline : Time) (ev : Event) : Prop :=
  match ev with
  | EvQuery _ t => from <= t < deadline
  | _ => True
  end.

(** A window that [json.Marshal] accepts and whose counters are Go [int]s. *)
Definition storable (info : RateLimitInfo) : Prop :=
  is_int (Limit info) ∧ is_int (Remaining info)
  ∧ year_0 <= ResetAt info < year_10000.

(** The last page that came back in a stretch of trace, [last] if none did. *)
Fixpoint last_reply (last : option Query) (trace : list Event) : option Query :=
  match trace with
  | [] => last
  | EvReply q :: trace' => last_reply (Some q) trace'
  | _ :: trace' => last_reply last trace'
  end.

(** The world a call ended in, [w] if it did not end. *)
Definition final_world {A : Type} (run : option (A * World)) (w : World) : World :=
  match run with
  | Some (_, w') => w'
  | None => w
  end.

(** What a call returned, the zero values if it did not return. *)
Definition returned (run : option (Outcome Result * World)) : Result :=
  match run with
  | Some (Return res, _) => res
  | _ => (∅, 0, None)
  end.

Module Cases.
Import Examples Scenario.

(** Two pages come back; the second is the last. *)
Definition run_two_pages : option (Outcome Result * World) :=
  DefaultFetchStars [] [page1; page2] "octocat" "token" 5 world0.

(** The second page fails for good. *)
Definition run_bad_gateway : option (Outcome Result * World) :=
  DefaultFetchStars [] [page1; bad_gateway; page2] "octocat" "token" 5 world0.

(** The [generate] pipeline on the same two pages. *)
Definition run_generate : option (Outcome Result * World) :=
  fetchAndProcessStars [] [page1; page2] config0 world0.

(** A [.env] file with a comment, padded assignments and a line without
    "=". *)
Definition dotenv : list string :=
  ["# credentials"; ""; "GITHUB_USER = octocat"; "not an assignment";
   "  GITHUB_TOKEN=abc=  "; "OUTPUT_FILE="].

End Cases.

(** * Properties *)

(** ** The ignore filter *)

Lemma ignored_loop_true (L : list string) (N : string) :
  ignored_loop L N = true ↔ ∃ i, i ∈ L ∧ strings.ToLower i = strings.ToLower N.
Proof.
  induction L as [|x L IH]; simpl.
  - split; [discriminate|]. intros (i & Hi & _). by apply elem_of_nil in Hi.
  - destruct (String.eqb_spec (strings.ToLower x) (strings.ToLower N)) as [Heq|Hne].
    + split; [|done]. intros _. exists x. split; [left|done].
    + rewrite IH. split.
      * intros (i & Hi & Hl). exists i. split; [by right|done].
      * intros (i & Hi & Hl). apply elem_of_cons in Hi as [->|Hi]; [done|eauto].
Qed.

(** C5: [isIgnored] holds of a name exactly when some entry of the ignore
    list has the same lower-case form as the name, a comparison of whole
    strings; with an empty list it never holds. *)
Theorem isIgnored_iff (L : list string) (N : string) :
  (isIgnored L N = true ↔ ∃ i, i ∈ L ∧ strings.ToLower i = strings.ToLower N)
  ∧ isIgnored [] N = false.
Proof.
  split; [|done].
  unfold isIgnored. destruct L as [|x L].
  - simpl. split; [discriminate|]. intros (i & Hi & _). by apply elem_of_nil in Hi.
  - change (length (x :: L) =? 0)%nat with false. cbv iota. apply ignored_loop_true.
Qed.

(** ** License and language of a record *)

(** C6: a non-empty nickname is the license whatever the full name is;
    without a nickname the license is the full name, unless that name is
    empty or is "other" in any letter case, and then it is empty. *)
Theorem determineLicense_spec (li : LicenseInfo) :
  (li_Nickname li ≠ "" → determineLicense li = li_Nickname li)
  ∧ (li_Nickname li = "" →
     (li_Name li = "" ∨ strings.ToLower (li_Name li) = "other" → determineLicense li = "")
     ∧ (li_Name li ≠ "" ∧ strings.ToLower (li_Name li) ≠ "other" →
        determineLicense li = li_Name li)).
Proof.
  unfold determineLicense.
  destruct (String.eqb_spec (li_Nickname li) "") as [Hn|Hn]; simpl.
  - split; [done|]. intros _.
    destruct (String.eqb_spec (li_Name li) "") as [He|He]; simpl.
    { split; [done|]. by intros [? _]. }
    destruct (String.eqb_spec (strings.ToLower (li_Name li)) "other") as [Ho|Ho]; simpl.
    { split; [done|]. by intros [_ ?]. }
    split; [|done]. by intros [?|?].
  - split; [done|]. intros Hn'. by destruct Hn.
Qed.

(** C7: a record without reported languages has the language "Unknown";
    otherwise its language is the head of the reported list, which the
    remote side orders by size. *)
Theorem determineLanguage_spec (languages : list LanguageEdge) :
  (languages = [] → determineLanguage languages = "Unknown")
  ∧ (∀ l rest, languages = l :: rest → determineLanguage languages = lang_Name l).
Proof.
  split.
  - by intros ->.
  - by intros l rest ->.
Qed.

(** ** Sorting the buckets *)

Section SortFacts.
Context {A : Type} (less : A → A → bool).
Hypothesis less_asym : ∀ x y, less x y = true → less y x = false.

Lemma sift_perm (x : A) (before : list A) : sift less x before ≡ₚ x :: before.
Proof.
  induction before as [|y before IH]; simpl; [done|].
  destruct (less x y); [|done].
  rewrite IH. apply Permutation_swap.
Qed.

Lemma sift_HdRel (x y : A) (before : list A) :
  less y x = false → HdRel (flip (ordered less)) y before →
  HdRel (flip (ordered less)) y (sift less x before).
Proof.
  intros Hyx Hhd. destruct before as [|z before]; simpl.
  - by constructor.
  - destruct (less x z); constructor; [|done].
    by apply HdRel_inv in Hhd.
Qed.

Lemma sift_Sorted (x : A) (before : list A) :
  Sorted (flip (ordered less)) before → Sorted (flip (ordered less)) (sift less x before).
Proof.
  induction 1 as [|y before Hs IH Hhd]; simpl.
  - by repeat constructor.
  - destruct (less x y) eqn:Hxy.
    + constructor; [done|]. apply sift_HdRel; [|done]. by apply less_asym.
    + constructor; [by constructor|]. by constructor.
Qed.

Lemma sift_all_perm (data before : list A) :
  fold_left (λ before x, sift less x before) data before ≡ₚ data ++ before.
Proof.
  revert before. induction data as [|x data IH]; intros before; simpl; [done|].
  rewrite IH, sift_perm. by rewrite Permutation_middle.
Qed.

Lemma sift_all_Sorted (data before : list A) :
  Sorted (flip (ordered less)) before →
  Sorted (flip (ordered less)) (fold_left (λ before x, sift less x before) data before).
Proof.
  revert before. induction data as [|x data IH]; intros before Hs; simpl; [done|].
  by apply IH, sift_Sorted.
Qed.

Lemma sort_Slice_perm (data : list A) : sort_Slice less data ≡ₚ data.
Proof.
  unfold sort_Slice. rewrite reverse_Permutation, sift_all_perm.
  by rewrite app_nil_r.
Qed.

Lemma sort_Slice_Sorted (data : list A) : Sorted (ordered less) (sort_Slice less data).
Proof.
  unfold sort_Slice.
  apply (Sorted_reverse (flip (ordered less))), sift_all_Sorted. constructor.
Qed.
End SortFacts.

Lemma string_lt_asym (a b : string) : strings.lt a b = true → strings.lt b a = false.
Proof.
  unfold strings.lt, String.ltb. rewrite (String.compare_antisym b a).
  by destruct (String.compare a b).
Qed.

Lemma ordered_name_le (a b : Star) : ordered lessByName a b → name_le a b.
Proof.
  unfold ordered, lessByName, name_le, String.le, strings.lt, String.ltb, String.leb.
  rewrite (String.compare_antisym (strings.ToLower (NameWithOwner a))).
  by destruct (String.compare _ _).
Qed.

Global Instance name_le_trans : Transitive name_le.
Proof. intros a b c. unfold name_le. apply transitivity. Qed.

Lemma Sorted_weaken {A : Type} (R R' : relation A) (l : list A) :
  (∀ x y, R x y → R' x y) → Sorted R l → Sorted R' l.
Proof.
  intros HR. induction 1 as [|x l Hs IH Hhd]; constructor; [done|].
  destruct Hhd; constructor. by apply HR.
Qed.

Lemma sort_by_name_sorted (bucket : list Star) :
  StronglySorted name_le (sort_Slice lessByName bucket).
Proof.
  apply Sorted_StronglySorted; [apply name_le_trans|].
  apply (Sorted_weaken (ordered lessByName)); [apply ordered_name_le|].
  apply sort_Slice_Sorted. intros x y. apply string_lt_asym.
Qed.


Lemma sort_buckets_lookup (stars : gmap string (list Star)) (k : string) :
  (sort_Slice lessByName <$> stars) !! k = sort_Slice lessByName <$> (stars !! k).
Proof. apply lookup_fmap. Qed.

(** C8: when [fetchAndProcessStars] returns without error, the mapping it
    returns has the language keys of the fetched mapping, and every bucket
    is a permutation of the fetched bucket, sorted ascending by the
    lower-case [NameWithOwner]. *)
Theorem fetchAndProcessStars_sorted (ignored : list string) (script : list Response)
  (config : Config) (w w' : World) (stars' : gmap string (list Star)) (total : Z) :
  fetchAndProcessStars ignored script config w = Some (Return (stars', total, None), w') →
  ∃ stars : gmap string (list Star),
    fetchStars ignored script config w = Some (Return (stars, total, None), w')
    ∧ dom stars' = dom stars
    ∧ ∀ k bucket, stars !! k = Some bucket →
        ∃ bucket', stars' !! k = Some bucket'
                   ∧ bucket' ≡ₚ bucket
                   ∧ StronglySorted name_le bucket'.
Proof.
  unfold fetchAndProcessStars. intros Hrun.
  destruct (fetchStars ignored script config w) as [[[[[stars t] [err|]]|msg] w1]|];
    simplify_eq.
  exists stars. split; [done|]. split; [apply dom_fmap_L|].
  intros k bucket Hk. exists (sort_Slice lessByName bucket).
  rewrite sort_buckets_lookup, Hk. split; [done|]. split.
  - apply sort_Slice_perm.
  - apply sort_by_name_sorted.
Qed.

Lemma fetchAndProcessStars_sorted_witness :
  ∃ (w' : World) (stars : gmap string (list Star)),
    fetchStars [] [Reply second (Examples.page [Examples.tools; Examples.go] "" false 4999)]
      Examples.config0 Examples.world0
    = Some (Return (stars, 2, None), w')
    ∧ dom ({[ "Go" := [newStar Examples.go; newStar Examples.tools] ]}
             : gmap string (list Star)) = dom stars
    ∧ ∀ k bucket, stars !! k = Some bucket →
        ∃ bucket', ({[ "Go" := [newStar Examples.go; newStar Examples.tools] ]}
                      : gmap string (list Star)) !! k = Some bucket'
                   ∧ bucket' ≡ₚ bucket
                   ∧ StronglySorted name_le bucket'.
Proof.
  eexists.
  apply (fetchAndProcessStars_sorted [] _ Examples.config0 Examples.world0).
  vm_compute. reflexivity.
Defined.

(** ** The rate-limit state store *)

Lemma in_int_true (z : Z) : is_int z → in_int z = true.
Proof.
  unfold is_int, in_int. intros [Hlo Hhi].
  apply Z.leb_le in Hlo. apply Z.ltb_lt in Hhi. by rewrite Hlo, Hhi.
Qed.

Lemma json_Marshal_ok (info : RateLimitInfo) (doc : json) :
  json_Marshal info = (Some doc, None) →
  doc = JObject [("limit", JNumber (Limit info));
                 ("remaining", JNumber (Remaining info));
                 ("reset_at", JStamp (ResetAt info))].
Proof. unfold json_Marshal. case_match; by intros [= <-]. Qed.

Lemma json_Unmarshal_Marshal (info : RateLimitInfo) (doc : json) :
  is_int (Limit info) → is_int (Remaining info) →
  json_Marshal info = (Some doc, None) →
  json_Unmarshal (Document doc) zero_RateLimitInfo = (info, None).
Proof.
  intros Hl Hr ->%json_Marshal_ok. destruct info as [l r t]. simpl in *.
  unfold decode_member. simpl.
  by rewrite (in_int_true l), (in_int_true r).
Qed.

Lemma os_ReadFile_WriteFile (name : string) (data : FileData) (fs fs' : FileSystem) :
  os_WriteFile name data fs = (None, fs') → os_ReadFile name fs' = (Some data, None).
Proof.
  unfold os_WriteFile, os_ReadFile. destruct (fs_readonly fs); [done|].
  intros [= <-]. simpl. by rewrite lookup_insert_eq.
Qed.

(** C9: a window that [saveRateLimitInfo] stores without error is the
    window [loadRateLimitInfo] reads back, field by field; [Limit] and
    [Remaining] are Go [int]s. *)
Theorem save_load_roundtrip (info : RateLimitInfo) (fs fs' : FileSystem) :
  is_int (Limit info) → is_int (Remaining info) →
  saveRateLimitInfo info fs = (None, fs') →
  loadRateLimitInfo fs' = (info, None).
Proof.
  intros Hl Hr. unfold saveRateLimitInfo, loadRateLimitInfo.
  destruct (json_Marshal info) as [[doc|] [err|]] eqn:Hm; try done.
  - intros Hw%os_ReadFile_WriteFile. rewrite Hw.
    by rewrite (json_Unmarshal_Marshal info doc).
  - unfold json_Marshal in Hm. by case_match.
Qed.

Lemma save_load_roundtrip_witness :
  loadRateLimitInfo
    {| fs_files := {[ rate_limit_file :=
                        Document (JObject [("limit", JNumber 5000);
                                           ("remaining", JNumber 4999);
                                           ("reset_at",
                                            JStamp (Examples.start + 30 * minute))]) ]};
       fs_readonly := false |}
  = (Examples.window 4999, None).
Proof.
  apply (save_load_roundtrip (Examples.window 4999) (w_fs Examples.world0)).
  - unfold is_int. simpl. lia.
  - unfold is_int. simpl. lia.
  - vm_compute. reflexivity.
Defined.

(** ** License name and license link of a record *)

Lemma determineLicense_none (li : LicenseInfo) :
  li_Nickname li = "" →
  li_Name li = "" ∨ strings.ToLower (li_Name li) = "other" →
  determineLicense li = "".
Proof.
  unfold determineLicense. intros -> [-> | ->]; simpl; [done|].
  by destruct (String.eqb (li_Name li) "").
Qed.

(** C10 as stated fails: a license named "Other" that has a nickname keeps
    the nickname as its display name. *)
Lemma license_other_with_nickname :
  let li := {| li_Name := "Other"; li_Nickname := "Custom License";
               li_Url := "https://example.com/LICENSE" |} in
  let e := Examples.repo "octocat/custom" "custom" "Go" li false in
  strings.ToLower (li_Name (n_LicenseInfo (e_Node e))) = "other"
  ∧ li_Url (n_LicenseInfo (e_Node e)) ≠ ""
  ∧ skipped [] e = false
  ∧ License (newStar e) = "Custom License"
  ∧ License (newStar e) ≠ "".
Proof. repeat split; done. Qed.

(** C10, amended: for a fetched repository that is not skipped, without a
    license nickname and with a full license name that is empty or "other"
    in any letter case, the record appended to its language bucket has an
    empty [License] and carries the raw license URL in [LicenseUrl]. *)
Theorem empty_license_keeps_url (ignored : list string)
  (stars : gmap string (list Star)) (total : Z) (e : RepoEdge) :
  skipped ignored e = false →
  li_Nickname (n_LicenseInfo (e_Node e)) = "" →
  li_Name (n_LicenseInfo (e_Node e)) = ""
    ∨ strings.ToLower (li_Name (n_LicenseInfo (e_Node e))) = "other" →
  ∃ s : Star,
    (addEdge ignored (stars, total) e).1 !! determineLanguage (n_Languages (e_Node e))
    = Some (default [] (stars !! determineLanguage (n_Languages (e_Node e))) ++ [s])
    ∧ License s = ""
    ∧ LicenseUrl s = li_Url (n_LicenseInfo (e_Node e)).
Proof.
  intros Hskip Hnick Hname. exists (newStar e). split; [|split].
  - unfold addEdge. rewrite Hskip. simpl.
    destruct (stars !! determineLanguage _) eqn:Hl.
    + by rewrite lookup_insert_eq, Hl.
    + by rewrite !lookup_insert_eq.
  - simpl. by apply determineLicense_none.
  - done.
Qed.

Lemma empty_license_keeps_url_witness :
  let li := {| li_Name := "Other"; li_Nickname := "";
               li_Url := "https://example.com/LICENSE" |} in
  let e := Examples.repo "octocat/custom" "custom" "Go" li false in
  ∃ s : Star,
    (addEdge [] (∅, 0) e).1 !! "Go" = Some ([] ++ [s])
    ∧ License s = ""
    ∧ LicenseUrl s = "https://example.com/LICENSE".
Proof.
  intros li e.
  exact (empty_license_keeps_url [] ∅ 0 e eq_refl eq_refl (or_intror eq_refl)).
Defined.

(** ** The fetch loop, turn by turn *)

Lemma fetchLoop_unfold (ignored : list string) (deadline : Time) (script : list Response)
  (cursor : string) (lim : Limiter) (acc : gmap string (list Star) * Z) (w : World) :
  fetchLoop ignored deadline script cursor lim acc w =
  match limiter_Wait deadline lim w with
  | (Some err, _, w) => Some ((acc.1, acc.2, Some err), w)
  | (None, lim, w) =>
      match script with
      | [] => None
      | r :: script =>
          match client_Query deadline cursor r w with
          | (Some err, w) =>
              if isRateLimitError err
              then fetchLoop ignored deadline script cursor lim acc (slept w)
              else Some ((acc.1, acc.2, Some err), w)
          | (None, w) =>
              if negb (HasNextPage (q_PageInfo (w_query (saved w))))
              then Some ((addEdges ignored (q_Edges (w_query (saved w))) acc, None),
                         saved w)
              else fetchLoop ignored deadline script
                     (EndCursor (q_PageInfo (w_query (saved w)))) lim
                     (addEdges ignored (q_Edges (w_query (saved w))) acc) (saved w)
          end
      end
  end.
Proof.
  destruct script as [|r script]; simpl; [done|].
  destruct (limiter_Wait deadline lim w) as [[[err|] lim1] w1]; [done|].
  destruct (client_Query deadline cursor r w1) as [[err|] w2]; [done|].
  fold (saved w2). by destruct (addEdges _ _ _).
Qed.

Lemma fetchLoop_Run (ignored : list string) (deadline : Time) (script : list Response)
  (cursor : string) (lim : Limiter) (acc : gmap string (list Star) * Z) (w : World)
  (res : Result * World) :
  fetchLoop ignored deadline script cursor lim acc w = Some res ↔
  Run ignored deadline script cursor lim acc w res.
Proof.
  split.
  - revert cursor lim acc w.
    induction script as [|r script IH]; intros cursor lim acc w;
      rewrite fetchLoop_unfold;
      destruct (limiter_Wait deadline lim w) as [[[err|] lim1] w1] eqn:Hwait;
      try (intros [= <-]; by eapply Run_wait_failed).
    destruct (client_Query deadline cursor r w1) as [[err|] w2] eqn:Hq.
    + destruct (isRateLimitError err) eqn:Hrl.
      * intros Hrec%IH. by eapply Run_quota_retry.
      * intros [= <-]. by eapply Run_query_failed.
    + destruct (HasNextPage (q_PageInfo (w_query (saved w2)))) eqn:Hnext; simpl.
      * intros Hrec%IH. by eapply Run_next_page.
      * intros [= <-]. by eapply Run_last_page.
  - induction 1 as [script cursor lim acc w err lim1 w1 Hwait
                   |r script cursor lim acc w lim1 w1 err w2 Hwait Hq Hrl
                   |r script cursor lim acc w lim1 w1 err w2 res Hwait Hq Hrl _ IH
                   |r script cursor lim acc w lim1 w1 w2 Hwait Hq Hnext
                   |r script cursor lim acc w lim1 w1 w2 res Hwait Hq Hnext _ IH];
      rewrite fetchLoop_unfold, Hwait; try done; rewrite Hq, ?Hrl, ?Hnext; done.
Qed.

(** *** What one call does to the world *)

Lemma limiter_Wait_ok (deadline : Time) (lim lim1 : Limiter) (w w1 : World) :
  limiter_Wait deadline lim w = (None, lim1, w1) →
  w_now w <= w_now w1 < deadline
  ∧ w_query w1 = w_query w ∧ w_fs w1 = w_fs w ∧ w_trace w1 = w_trace w.
Proof.
  unfold limiter_Wait.
  destruct (Z.leb_spec deadline (w_now w)); [done|].
  destruct (Z.leb_spec (lim_interval lim) 0).
  { intros [= <- <-]. repeat split; lia. }
  destruct (Z.leb_spec deadline (Z.max (w_now w) (lim_next lim))); [done|].
  intros [= <- <-]. simpl. repeat split; lia.
Qed.

Lemma limiter_Wait_failed (deadline : Time) (lim lim1 : Limiter) (w w1 : World)
  (err : error) :
  limiter_Wait deadline lim w = (Some err, lim1, w1) →
  w1 = w ∧ is_timeout err = true.
Proof.
  unfold limiter_Wait.
  destruct (deadline <=? w_now w); [by intros [= <- <- <-]|].
  destruct (lim_interval lim <=? 0); [done|].
  destruct (deadline <=? Z.max (w_now w) (lim_next lim)); [by intros [= <- <- <-]|done].
Qed.

Lemma limiter_Wait_expired (deadline : Time) (lim : Limiter) (w : World) :
  deadline <= w_now w →
  limiter_Wait deadline lim w = (Some ErrDeadlineExceeded, lim, w).
Proof. unfold limiter_Wait. intros H%Z.leb_le. by rewrite H. Qed.

Lemma client_Query_ok (deadline : Time) (cursor : string) (r : Response) (w w2 : World) :
  client_Query deadline cursor r w = (None, w2) →
  w_trace w2 = w_trace w ++ [EvQuery cursor (w_now w); EvReply (w_query w2)]
  ∧ w_now w <= w_now w2 < deadline ∧ w_fs w2 = w_fs w.
Proof.
  unfold client_Query. simpl.
  destruct (Z.leb_spec deadline (w_now w + took r)); [done|].
  assert (0 <= took r) by (unfold took; lia).
  destruct r as [t q|t msg [q|]]; [|done..].
  intros [= <-]. simpl. rewrite <-app_assoc. repeat split; lia.
Qed.

Lemma client_Query_failed (deadline : Time) (cursor : string) (r : Response) (w w2 : World)
  (err : error) :
  client_Query deadline cursor r w = (Some err, w2) →
  w_trace w2 = w_trace w ++ [EvQuery cursor (w_now w); EvFailure err (w_query w2)]
  ∧ w_now w <= w_now w2
  ∧ (deadline <= w_now w2 → err = ErrQueryDeadline)
  ∧ w_fs w2 = w_fs w.
Proof.
  unfold client_Query. simpl.
  destruct (Z.leb_spec deadline (w_now w + took r)).
  { intros [= <- <-]. simpl. rewrite <-app_assoc. repeat split; lia. }
  assert (0 <= took r) by (unfold took; lia).
  destruct r as [t q|t msg [q|]]; [done|..];
    intros [= <- <-]; simpl; rewrite <-app_assoc; repeat split; lia.
Qed.

Lemma slept_now (w : World) :
  w_now (slept w) = wake (w_now w) (ResetAt (q_RateLimit (w_query w))).
Proof.
  unfold slept, time_Sleep, time_Until, wake, minDuration, maxDuration. simpl. lia.
Qed.

Lemma slept_trace (w : World) :
  w_trace (slept w) = w_trace w ++ [EvSleep (w_now w) (w_now (slept w))].
Proof. reflexivity. Qed.

Lemma saved_trace (w : World) :
  w_trace (saved w) = w_trace w ++ [EvSave (q_RateLimit (w_query w))].
Proof. reflexivity. Qed.

Lemma saved_now (w : World) : w_now (saved w) = w_now w.
Proof. reflexivity. Qed.

Lemma saved_query (w : World) : w_query (saved w) = w_query w.
Proof. reflexivity. Qed.

(** *** What a run leaves in the trace *)

Lemma fetched_app (tr1 tr2 : list Event) : fetched (tr1 ++ tr2) = fetched tr1 ++ fetched tr2.
Proof.
  induction tr1 as [|ev tr1 IH]; simpl; [done|].
  destruct ev; try done. by rewrite IH, app_assoc.
Qed.

Lemma addEdges_app (ignored : list string) (es1 es2 : list RepoEdge)
  (acc : gmap string (list Star) * Z) :
  addEdges ignored (es1 ++ es2) acc = addEdges ignored es2 (addEdges ignored es1 acc).
Proof. apply fold_left_app. Qed.

Ltac induction_Run H :=
  induction H as [script cursor lim acc w err lim1 w1 Hwait
                 |r script cursor lim acc w lim1 w1 err w2 Hwait Hq Hrl
                 |r script cursor lim acc w lim1 w1 err w2 res Hwait Hq Hrl Hrun IH
                 |r script cursor lim acc w lim1 w1 w2 Hwait Hq Hnext
                 |r script cursor lim acc w lim1 w1 w2 res Hwait Hq Hnext Hrun IH].

(** The events of one turn, for each way it can go. *)
Lemma turn_query_failed (deadline : Time) (cursor : string) (r : Response)
  (lim lim1 : Limiter) (w w1 w2 : World) (err : error) :
  limiter_Wait deadline lim w = (None, lim1, w1) →
  client_Query deadline cursor r w1 = (Some err, w2) →
  w_trace w2 = w_trace w ++ [EvQuery cursor (w_now w1); EvFailure err (w_query w2)]
  ∧ w_now w <= w_now w1 < deadline ∧ w_now w1 <= w_now w2.
Proof.
  intros (Hnow & _ & _ & Htr)%limiter_Wait_ok (Htr2 & Hnow2 & _)%client_Query_failed.
  by rewrite Htr2, Htr.
Qed.

Lemma turn_quota_retry (deadline : Time) (cursor : string) (r : Response)
  (lim lim1 : Limiter) (w w1 w2 : World) (err : error) :
  limiter_Wait deadline lim w = (None, lim1, w1) →
  client_Query deadline cursor r w1 = (Some err, w2) →
  w_trace (slept w2)
  = w_trace w ++ [EvQuery cursor (w_now w1); EvFailure err (w_query w2);
                  EvSleep (w_now w2) (w_now (slept w2))]
  ∧ w_now w <= w_now w1 < deadline ∧ w_now w1 <= w_now w2.
Proof.
  intros Hwait Hq.
  destruct (turn_query_failed _ _ _ _ _ _ _ _ _ Hwait Hq) as (Htr & Hnow).
  by rewrite slept_trace, Htr, <-app_assoc.
Qed.

Lemma turn_page (deadline : Time) (cursor : string) (r : Response)
  (lim lim1 : Limiter) (w w1 w2 : World) :
  limiter_Wait deadline lim w = (None, lim1, w1) →
  client_Query deadline cursor r w1 = (None, w2) →
  w_trace (saved w2)
  = w_trace w ++ [EvQuery cursor (w_now w1); EvReply (w_query w2);
                  EvSave (q_RateLimit (w_query w2))]
  ∧ w_now w <= w_now w1 < deadline ∧ w_now w2 < deadline.
Proof.
  intros (Hnow & _ & _ & Htr)%limiter_Wait_ok (Htr2 & Hnow2 & _)%client_Query_ok.
  rewrite saved_trace, Htr2, Htr, <-app_assoc. repeat split; lia.
Qed.

(** A run only adds to the trace, and the buckets and the count it returns
    are those of the edges of the pages that came back during it, whether
    it ends with an error or not. *)
Lemma Run_extends (ignored : list string) (deadline : Time) (script : list Response)
  (cursor : string) (lim : Limiter) (acc : gmap string (list Star) * Z) (w : World)
  (res : Result * World) :
  Run ignored deadline script cursor lim acc w res →
  ∃ new : list Event,
    w_trace res.2 = w_trace w ++ new
    ∧ res.1.1 = addEdges ignored (fetched new) acc.
Proof.
  intros H. induction_Run H.
  - apply limiter_Wait_failed in Hwait as [-> _].
    exists []. rewrite app_nil_r. by destruct acc.
  - destruct (turn_query_failed _ _ _ _ _ _ _ _ _ Hwait Hq) as (Htr & _).
    eexists. split; [exact Htr|]. by destruct acc.
  - destruct (turn_quota_retry _ _ _ _ _ _ _ _ _ Hwait Hq) as (Htr & _).
    destruct IH as (new & Hnew & Hacc).
    eexists. rewrite Hnew, Htr, <-app_assoc. split; [done|].
    by rewrite fetched_app.
  - destruct (turn_page _ _ _ _ _ _ _ _ Hwait Hq) as (Htr & _).
    eexists. split; [exact Htr|]. simpl. by rewrite app_nil_r.
  - destruct (turn_page _ _ _ _ _ _ _ _ Hwait Hq) as (Htr & _).
    destruct IH as (new & Hnew & Hacc).
    eexists. rewrite Hnew, Htr, <-app_assoc. split; [done|].
    rewrite fetched_app, addEdges_app. simpl. by rewrite app_nil_r.
Qed.

(** The events of a run that goes on after a turn are those of the turn
    followed by those of the rest of the run. *)
Lemma Run_rest (ignored : list string) (deadline : Time) (script : list Response)
  (cursor : string) (lim : Limiter) (acc : gmap string (list Star) * Z) (w0 w : World)
  (res : Result * World) (turn new : list Event) :
  Run ignored deadline script cursor lim acc w res →
  w_trace w = w_trace w0 ++ turn →
  w_trace res.2 = w_trace w0 ++ new →
  ∃ rest, new = turn ++ rest ∧ w_trace res.2 = w_trace w ++ rest.
Proof.
  intros (rest & Hrest & _)%Run_extends Hturn Hnew.
  exists rest. split; [|done].
  rewrite Hrest, Hturn, <-app_assoc in Hnew. by apply app_inv_head in Hnew.
Qed.

(** A run starts with a query for the page of its cursor, before the
    deadline, unless the limiter ends it at once. *)
Lemma Run_first (ignored : list string) (deadline : Time) (script : list Response)
  (cursor : string) (lim : Limiter) (acc : gmap string (list Star) * Z) (w : World)
  (res : Result * World) (new : list Event) :
  Run ignored deadline script cursor lim acc w res →
  w_trace res.2 = w_trace w ++ new →
  (new = [] ∧ ∃ err, res.1.2 = Some err ∧ is_timeout err = true)
  ∨ (∃ t rest, new = EvQuery cursor t :: rest ∧ w_now w <= t < deadline).
Proof.
  intros H Hnew. destruct H as [script cursor lim acc w err lim1 w1 Hwait
                 |r script cursor lim acc w lim1 w1 err w2 Hwait Hq Hrl
                 |r script cursor lim acc w lim1 w1 err w2 res Hwait Hq Hrl Hrun
                 |r script cursor lim acc w lim1 w1 w2 Hwait Hq Hnext
                 |r script cursor lim acc w lim1 w1 w2 res Hwait Hq Hnext Hrun].
  - left. apply limiter_Wait_failed in Hwait as [-> Hto]. simpl in *.
    split; [|eauto].
    rewrite <-(app_nil_r (w_trace w)) in Hnew at 1. by apply app_inv_head in Hnew.
  - right. destruct (turn_query_failed _ _ _ _ _ _ _ _ _ Hwait Hq) as (Htr & Hnow & _).
    simpl in Hnew. rewrite Htr in Hnew. apply app_inv_head in Hnew as <-. eauto.
  - right. destruct (turn_quota_retry _ _ _ _ _ _ _ _ _ Hwait Hq) as (Htr & Hnow & _).
    destruct (Run_rest _ _ _ _ _ _ _ _ _ _ _ Hrun Htr Hnew) as (rest & -> & _). eauto.
  - right. destruct (turn_page _ _ _ _ _ _ _ _ Hwait Hq) as (Htr & Hnow & _).
    cbn [snd] in Hnew. rewrite Htr in Hnew. apply app_inv_head in Hnew as <-. eauto.
  - right. destruct (turn_page _ _ _ _ _ _ _ _ Hwait Hq) as (Htr & Hnow & _).
    destruct (Run_rest _ _ _ _ _ _ _ _ _ _ _ Hrun Htr Hnew) as (rest & -> & _). eauto.
Qed.

(** A run that ends at or after the deadline ends with a timeout. *)
Lemma Run_deadline (ignored : list string) (deadline : Time) (script : list Response)
  (cursor : string) (lim : Limiter) (acc : gmap string (list Star) * Z) (w : World)
  (res : Result * World) :
  Run ignored deadline script cursor lim acc w res →
  deadline <= w_now res.2 →
  ∃ err, res.1.2 = Some err ∧ is_timeout err = true.
Proof.
  intros H. induction_Run H; simpl; intros Hlate; try by apply IH.
  - apply limiter_Wait_failed in Hwait as [_ Hto]. eauto.
  - apply client_Query_failed in Hq as (_ & _ & Hd & _).
    rewrite (Hd Hlate). eauto.
  - apply client_Query_ok in Hq as (_ & Hnow & _). simpl in Hlate. lia.
Qed.

(** Nothing follows a query that failed for another reason than the quota:
    the run ends there, with that error and with what the pages before it
    had brought. *)
Lemma Run_failure (ignored : list string) (deadline : Time) (script : list Response)
  (cursor : string) (lim : Limiter) (acc : gmap string (list Star) * Z) (w : World)
  (res : Result * World) (before after : list Event) (c : string) (t : Time)
  (failure : error) (q : Query) :
  Run ignored deadline script cursor lim acc w res →
  w_trace res.2 = w_trace w ++ before ++ EvQuery c t :: EvFailure failure q :: after →
  isRateLimitError failure = false →
  after = [] ∧ res.1.2 = Some failure ∧ res.1.1 = addEdges ignored (fetched before) acc.
Proof.
  intros H. revert before. induction_Run H; intros before Hnew Hnq.
  - apply limiter_Wait_failed in Hwait as [-> _]. simpl in Hnew.
    rewrite <-(app_nil_r (w_trace w)) in Hnew at 1. apply app_inv_head in Hnew.
    by destruct before.
  - destruct (turn_query_failed _ _ _ _ _ _ _ _ _ Hwait Hq) as (Htr & _).
    simpl in Hnew. rewrite Htr in Hnew. apply app_inv_head in Hnew.
    destruct before as [|? [|? [|? ?]]]; simplify_eq/=. by destruct acc.
  - destruct (turn_quota_retry _ _ _ _ _ _ _ _ _ Hwait Hq) as (Htr & _).
    destruct (Run_rest _ _ _ _ _ _ _ _ _ _ _ Hrun Htr Hnew) as (rest & Hsplit & Hrest).
    destruct before as [|? [|? [|? before]]]; simplify_eq/=; [congruence|].
    by apply IH.
  - destruct (turn_page _ _ _ _ _ _ _ _ Hwait Hq) as (Htr & _).
    cbn [snd] in Hnew. rewrite Htr in Hnew. apply app_inv_head in Hnew.
    destruct before as [|? [|? [|? [|? ?]]]]; simplify_eq/=.
  - destruct (turn_page _ _ _ _ _ _ _ _ Hwait Hq) as (Htr & _).
    destruct (Run_rest _ _ _ _ _ _ _ _ _ _ _ Hrun Htr Hnew) as (rest & Hsplit & Hrest).
    destruct before as [|? [|? [|? before]]]; simplify_eq/=.
    destruct (IH before) as (Hafter & Herr & Hacc); [done..|].
    by rewrite addEdges_app.
Qed.

(** After a query that failed on the quota comes the sleep until the reset
    time that [query] then holds, as far as [time.Until] reaches; after the
    sleep the run either ends with a timeout or asks for the same page
    again, before the deadline. *)
Lemma Run_quota (ignored : list string) (deadline : Time) (script : list Response)
  (cursor : string) (lim : Limiter) (acc : gmap string (list Star) * Z) (w : World)
  (res : Result * World) (before after : list Event) (c : string) (t : Time)
  (failure : error) (q : Query) :
  Run ignored deadline script cursor lim acc w res →
  w_trace res.2 = w_trace w ++ before ++ EvQuery c t :: EvFailure failure q :: after →
  isRateLimitError failure = true →
  ∃ from rest,
    after = EvSleep from (wake from (ResetAt (q_RateLimit q))) :: rest
    ∧ t <= from
    ∧ ((rest = [] ∧ ∃ e, res.1.2 = Some e ∧ is_timeout e = true)
       ∨ (∃ t' rest', rest = EvQuery c t' :: rest'
                      ∧ wake from (ResetAt (q_RateLimit q)) <= t' < deadline)).
Proof.
  intros H. revert before. induction_Run H; intros before Hnew Hquota.
  - apply limiter_Wait_failed in Hwait as [-> _]. simpl in Hnew.
    rewrite <-(app_nil_r (w_trace w)) in Hnew at 1. apply app_inv_head in Hnew.
    by destruct before.
  - destruct (turn_query_failed _ _ _ _ _ _ _ _ _ Hwait Hq) as (Htr & _).
    simpl in Hnew. rewrite Htr in Hnew. apply app_inv_head in Hnew.
    destruct before as [|? [|? [|? ?]]]; simplify_eq/=. congruence.
  - destruct (turn_quota_retry _ _ _ _ _ _ _ _ _ Hwait Hq) as (Htr & _ & Hnow).
    destruct (Run_rest _ _ _ _ _ _ _ _ _ _ _ Hrun Htr Hnew) as (rest & Hsplit & Hrest).
    destruct before as [|? [|? [|? before]]]; simplify_eq/=; [|by apply (IH before)].
    exists (w_now w2), rest. rewrite <-slept_now. split; [done|]. split; [done|].
    apply (Run_first _ _ _ _ _ _ _ _ _ Hrun Hrest).
  - destruct (turn_page _ _ _ _ _ _ _ _ Hwait Hq) as (Htr & _).
    cbn [snd] in Hnew. rewrite Htr in Hnew. apply app_inv_head in Hnew.
    destruct before as [|? [|? [|? [|? ?]]]]; simplify_eq/=.
  - destruct (turn_page _ _ _ _ _ _ _ _ Hwait Hq) as (Htr & _).
    destruct (Run_rest _ _ _ _ _ _ _ _ _ _ _ Hrun Htr Hnew) as (rest & Hsplit & Hrest).
    destruct before as [|? [|? [|? before]]]; simplify_eq/=.
    by apply (IH before).
Qed.

(** [DefaultFetchStars] returns exactly when its loop does. *)
Lemma DefaultFetchStars_Run (ignored : list string) (script : list Response)
  (user token : string) (rateLimit : Z) (w w' : World) (res : Result) :
  DefaultFetchStars ignored script user token rateLimit w = Some (Return res, w') ↔
  rateLimit ≠ 0
  ∧ Run ignored (w_now w + minute * 3) script ""
      (rate_NewLimiter (Z.quot second rateLimit) w) (∅, 0) w (res, w').
Proof.
  unfold DefaultFetchStars. rewrite <-fetchLoop_Run.
  destruct (Z.eqb_spec rateLimit 0) as [->|Hne].
  - split; [done|]. by intros [? _].
  - destruct (fetchLoop _ _ _ _ _ _ _) as [[res1 w1]|].
    + split; [by intros [= <- <-]|by intros [_ [= <- <-]]].
    + split; [done|by intros [_ ?]].
Qed.

(** ** Counting the records *)

Lemma bucket_count_empty : bucket_count ∅ = 0%nat.
Proof. apply map_fold_empty. Qed.

Lemma bucket_count_insert_new (stars : gmap string (list Star)) (k : string)
  (bucket : list Star) :
  stars !! k = None →
  bucket_count (<[k := bucket]> stars) = (length bucket + bucket_count stars)%nat.
Proof.
  intros Hk. unfold bucket_count. rewrite map_fold_insert_L; [done| |done].
  intros. lia.
Qed.

Lemma bucket_count_insert (stars : gmap string (list Star)) (k : string)
  (bucket : list Star) :
  (bucket_count (<[k := bucket]> stars) + length (default [] (stars !! k))
   = bucket_count stars + length bucket)%nat.
Proof.
  destruct (stars !! k) as [old|] eqn:Hk; simpl.
  - rewrite <-(insert_delete_id stars k old Hk) at 2.
    rewrite <-(insert_delete_eq stars).
    rewrite !bucket_count_insert_new by apply lookup_delete_eq. lia.
  - rewrite bucket_count_insert_new by done. lia.
Qed.

Lemma bucket_count_fmap (f : list Star → list Star) (stars : gmap string (list Star)) :
  (∀ bucket, length (f bucket) = length bucket) →
  bucket_count (f <$> stars) = bucket_count stars.
Proof.
  intros Hf. unfold bucket_count. rewrite map_fold_fmap.
  rewrite !map_fold_foldr. induction (map_to_list stars) as [|[k b] l IH]; simpl; [done|].
  by rewrite IH, Hf.
Qed.

Lemma int_wrap_succ (n : Z) : int_wrap (int_wrap n + 1) = int_wrap (n + 1).
Proof.
  unfold int_wrap. f_equal.
  replace ((n + 2 ^ 63) mod 2 ^ 64 - 2 ^ 63 + 1 + 2 ^ 63)
    with ((n + 2 ^ 63) mod 2 ^ 64 + 1) by lia.
  rewrite Z.add_mod_idemp_l by lia. f_equal. lia.
Qed.

Lemma int_wrap_small (n : Z) : is_int n → int_wrap n = n.
Proof. unfold is_int, int_wrap. intros H. rewrite Z.mod_small; lia. Qed.

Lemma addEdge_skipped (ignored : list string) (acc : gmap string (list Star) * Z)
  (e : RepoEdge) :
  skipped ignored e = true → addEdge ignored acc e = acc.
Proof. intros H. destruct acc. unfold addEdge. by rewrite H. Qed.

Lemma addEdge_included (ignored : list string) (acc : gmap string (list Star) * Z)
  (e : RepoEdge) :
  skipped ignored e = false →
  bucket_count (addEdge ignored acc e).1 = S (bucket_count acc.1)
  ∧ (addEdge ignored acc e).2 = int_wrap (acc.2 + 1).
Proof.
  intros H. destruct acc as [stars total]. unfold addEdge. rewrite H. simpl.
  split; [|done].
  pose proof (bucket_count_insert stars (determineLanguage (n_Languages (e_Node e)))
                (default [] (stars !! determineLanguage (n_Languages (e_Node e)))
                 ++ [newStar e])) as Hins.
  rewrite length_app in Hins. simpl in Hins.
  destruct (stars !! determineLanguage _) as [old|] eqn:Hk; simpl in *.
  - rewrite Hk. simpl. lia.
  - rewrite lookup_insert_eq, insert_insert_eq. simpl. lia.
Qed.

Lemma addEdges_cons (ignored : list string) (e : RepoEdge) (edges : list RepoEdge)
  (acc : gmap string (list Star) * Z) :
  addEdges ignored (e :: edges) acc = addEdges ignored edges (addEdge ignored acc e).
Proof. reflexivity. Qed.

Lemma included_cons (ignored : list string) (e : RepoEdge) (edges : list RepoEdge) :
  included ignored (e :: edges)
  = if skipped ignored e then included ignored edges else e :: included ignored edges.
Proof. unfold included. simpl. by destruct (skipped ignored e). Qed.

Lemma addEdges_count (ignored : list string) (edges : list RepoEdge)
  (acc : gmap string (list Star) * Z) :
  counted acc →
  bucket_count (addEdges ignored edges acc).1
  = (bucket_count acc.1 + length (included ignored edges))%nat
  ∧ counted (addEdges ignored edges acc).
Proof.
  revert acc. induction edges as [|e edges IH]; intros acc Hacc.
  - simpl. split; [lia|done].
  - rewrite addEdges_cons, included_cons.
    destruct (skipped ignored e) eqn:Hskip.
    + rewrite addEdge_skipped by done. by apply IH.
    + destruct (addEdge_included ignored acc e Hskip) as [Hn Ht].
      destruct (IH (addEdge ignored acc e)) as [IHn IHt].
      { unfold counted. rewrite Ht, Hn, Hacc, int_wrap_succ. f_equal. lia. }
      split; [|done]. rewrite IHn, Hn. simpl. lia.
Qed.

(** On the remote path the count is the number of fetched records that are
    neither private nor ignored, and the number of records in the buckets,
    whether the fetch ends with an error or not. *)
Lemma DefaultFetchStars_count (ignored : list string) (script : list Response)
  (user token : string) (rateLimit : Z) (w w' : World)
  (stars : gmap string (list Star)) (total : Z) (e : option error) :
  DefaultFetchStars ignored script user token rateLimit w
  = Some (Return (stars, total, e), w') →
  ∃ new : list Event,
    w_trace w' = w_trace w ++ new
    ∧ bucket_count stars = length (included ignored (fetched new))
    ∧ total = int_wrap (Z.of_nat (bucket_count stars)).
Proof.
  intros [_ Hrun]%DefaultFetchStars_Run.
  apply Run_extends in Hrun as (new & Hnew & Hacc). simpl in *.
  exists new. split; [done|].
  destruct (addEdges_count ignored (fetched new) (∅, 0)) as [Hn Ht]; [done|].
  rewrite <-Hacc in Hn, Ht. simpl in *. by rewrite bucket_count_empty in Hn.
Qed.

Lemma sort_Slice_length {A : Type} (less : A → A → bool) (data : list A) :
  length (sort_Slice less data) = length data.
Proof.
  unfold sort_Slice. rewrite length_reverse.
  assert (∀ before, length (fold_left (λ before x, sift less x before) data before)
                    = (length data + length before)%nat) as ->; [|simpl; lia].
  induction data as [|x data IH]; intros before; simpl; [done|].
  rewrite IH. assert (length (sift less x before) = S (length before)) as ->; [|lia].
  induction before as [|y before IHb]; simpl; [done|].
  destruct (less x y); simpl; [by rewrite IHb|done].
Qed.

(** The same through [fetchAndProcessStars], when the fetch has no error. *)
Lemma fetchAndProcessStars_count (ignored : list string) (script : list Response)
  (config : Config) (w w' : World) (stars : gmap string (list Star)) (total : Z) :
  Test config = false →
  fetchAndProcessStars ignored script config w = Some (Return (stars, total, None), w') →
  ∃ new : list Event,
    w_trace w' = w_trace w ++ new
    ∧ bucket_count stars = length (included ignored (fetched new))
    ∧ total = int_wrap (Z.of_nat (bucket_count stars)).
Proof.
  unfold fetchAndProcessStars, fetchStars. intros ->.
  destruct (DefaultFetchStars _ _ _ _ _ _) as [[[[[stars0 t] [err|]]|msg] w1]|] eqn:Hrun;
    try done.
  intros [= <- <- <-].
  apply DefaultFetchStars_count in Hrun as (new & Hnew & Hn & Ht).
  exists new. rewrite bucket_count_fmap by apply sort_Slice_length. done.
Qed.

(** ** The count on the test-data path *)

Lemma testStars_total (ignored : list string) (w : World) : (testStars ignored w).2 = 4.
Proof. reflexivity. Qed.

Lemma testStars_bucket_count (ignored : list string) (w : World) :
  bucket_count (testStars ignored w).1 = 5%nat.
Proof.
  unfold testStars. cbn [NameWithOwner].
  destruct (isIgnored ignored "jmelfi/stargazer"), (isIgnored ignored "jmelfi/stars");
    vm_compute; reflexivity.
Qed.

(** C1 fails on the test-data path: whatever the ignore list, [testStars]
    hands out five records (an ignored one leaves a zero [Star] in its
    bucket) and the count 4.  On the remote path the count is right, see
    [fetchAndProcessStars_count]. *)
Theorem testStars_count_mismatch (ignored : list string) (script : list Response)
  (config : Config) (w : World) :
  Test config = true →
  ∃ stars : gmap string (list Star),
    fetchAndProcessStars ignored script config w = Some (Return (stars, 4, None), w)
    ∧ bucket_count stars = 5%nat
    ∧ 4 ≠ Z.of_nat (bucket_count stars).
Proof.
  intros Htest. exists (sort_Slice lessByName <$> (testStars ignored w).1).
  assert (bucket_count (sort_Slice lessByName <$> (testStars ignored w).1) = 5%nat) as Hn.
  { rewrite bucket_count_fmap by apply sort_Slice_length. apply testStars_bucket_count. }
  split; [|split; [done|rewrite Hn; lia]].
  unfold fetchAndProcessStars, fetchStars. rewrite Htest.
  pose proof (testStars_total ignored w) as Htot.
  destruct (testStars ignored w) as [stars total]. simpl in Htot. by subst.
Qed.

Lemma testStars_count_mismatch_witness :
  ∃ stars : gmap string (list Star),
    fetchAndProcessStars [] [] Examples.test_config Examples.world0
    = Some (Return (stars, 4, None), Examples.world0)
    ∧ bucket_count stars = 5%nat
    ∧ 4 ≠ Z.of_nat (bucket_count stars).
Proof.
  apply (testStars_count_mismatch [] [] Examples.test_config Examples.world0).
  reflexivity.
Defined.

(** ** Failures of a query *)


(** C2: when a query fails and the failure is not a quota error, the loop
    ends in that very turn: it returns the error with the buckets and the
    count as they are, and the world is the one the failed call left, the
    call and its failure being the last events. *)
Theorem query_failure_aborts (ignored : list string) (deadline : Time) (r : Response)
  (script : list Response) (cursor : string) (lim lim1 : Limiter)
  (acc : gmap string (list Star) * Z) (w w1 w2 : World) (err : error) :
  limiter_Wait deadline lim w = (None, lim1, w1) →
  client_Query deadline cursor r w1 = (Some err, w2) →
  isRateLimitError err = false →
  fetchLoop ignored deadline (r :: script) cursor lim acc w
  = Some ((acc.1, acc.2, Some err), w2)
  ∧ w_trace w2 = w_trace w ++ [EvQuery cursor (w_now w1); EvFailure err (w_query w2)].
Proof.
  intros Hwait Hq Hrl. split.
  - apply fetchLoop_Run. by eapply Run_query_failed.
  - by destruct (turn_query_failed _ _ _ _ _ _ _ _ _ Hwait Hq) as (Htr & _).
Qed.

Lemma query_failure_aborts_witness :
  fetchLoop [] Scenario.deadline0 [Scenario.bad_gateway; Scenario.page2] "c1"
    Scenario.limiter1 Scenario.acc1 Scenario.world1
  = Some (({[ "Go" := [newStar Examples.tools] ]}, 1, Some (ErrQuery "502 Bad Gateway")),
          Scenario.world1_failed)
  ∧ w_trace Scenario.world1_failed
    = w_trace Scenario.world1
      ++ [EvQuery "c1" (Examples.start + second);
          EvFailure (ErrQuery "502 Bad Gateway") (w_query Scenario.world1_failed)].
Proof.
  assert (limiter_Wait Scenario.deadline0 Scenario.limiter1 Scenario.world1
          = (None, Scenario.limiter2, Scenario.world1_wait)) as Hwait
    by (vm_compute; reflexivity).
  assert (client_Query Scenario.deadline0 "c1" Scenario.bad_gateway Scenario.world1_wait
          = (Some (ErrQuery "502 Bad Gateway"), Scenario.world1_failed)) as Hq
    by (vm_compute; reflexivity).
  exact (query_failure_aborts [] Scenario.deadline0 Scenario.bad_gateway [Scenario.page2]
           "c1" Scenario.limiter1 Scenario.limiter2 Scenario.acc1 Scenario.world1
           Scenario.world1_wait Scenario.world1_failed (ErrQuery "502 Bad Gateway")
           Hwait Hq eq_refl).
Defined.

(** The whole fetch of that scenario: the page that came back is in the
    result, next to the error of the page that did not. *)
Example fetch_with_bad_gateway :
  ∃ w' : World,
    DefaultFetchStars [] [Scenario.page1; Scenario.bad_gateway; Scenario.page2]
      "octocat" "token" 5 Examples.world0
    = Some (Return ({[ "Go" := [newStar Examples.tools] ]}, 1,
                    Some (ErrQuery "502 Bad Gateway")), w')
    ∧ fetched (w_trace w') = [Examples.tools; Examples.secret].
Proof. eexists. split; vm_compute; reflexivity. Qed.

(** ** The deadline *)

(** C3 as stated fails: the quota error on the second page puts the loop
    to sleep past the deadline; the fetch then returns the context's error
    together with the record of the first page and the count 1. *)
Lemma deadline_keeps_partial_results :
  ∃ w' : World,
    DefaultFetchStars [] [Scenario.page1; Scenario.quota (Examples.start + 30 * minute)]
      "octocat" "token" 5 Examples.world0
    = Some (Return ({[ "Go" := [newStar Examples.tools] ]}, 1, Some ErrDeadlineExceeded), w')
    ∧ w_now Examples.world0 + minute * 3 <= w_now w'
    ∧ ({[ "Go" := [newStar Examples.tools] ]} : gmap string (list Star)) ≠ ∅.
Proof.
  eexists. split; [vm_compute; reflexivity|]. split; [vm_compute; discriminate|].
  intros H. apply (f_equal (λ m : gmap string (list Star), m !! "Go")) in H.
  vm_compute in H. discriminate.
Qed.

(** Once the deadline has passed, the next turn of the loop ends it with
    the context's error and with the buckets and the count as they are. *)
Lemma fetchLoop_expired (ignored : list string) (deadline : Time) (script : list Response)
  (cursor : string) (lim : Limiter) (acc : gmap string (list Star) * Z) (w : World) :
  deadline <= w_now w →
  fetchLoop ignored deadline script cursor lim acc w
  = Some ((acc.1, acc.2, Some ErrDeadlineExceeded), w).
Proof.
  intros Hlate. apply fetchLoop_Run.
  eapply Run_wait_failed. by apply limiter_Wait_expired.
Qed.

(** C3, amended: a fetch that is still running when the deadline passes
    returns a timeout error, and [DefaultFetchStars] returns with it the
    buckets and the count of the pages that came back; it is its caller
    [fetchAndProcessStars] that drops them, returning no bucket and the
    count 0 with the wrapped error. *)
Theorem deadline_returns_partial_results (ignored : list string) (script : list Response)
  (config : Config) (w w' : World) (stars : gmap string (list Star)) (total : Z)
  (e : option error) (new : list Event) :
  Test config = false →
  DefaultFetchStars ignored script (GithubUser config) (GithubToken config)
    (RateLimit config) w = Some (Return (stars, total, e), w') →
  w_trace w' = w_trace w ++ new →
  w_now w + minute * 3 <= w_now w' →
  ∃ err : error,
    e = Some err
    ∧ is_timeout err = true
    ∧ (stars, total) = addEdges ignored (fetched new) (∅, 0)
    ∧ fetchAndProcessStars ignored script config w
      = Some (Return (∅, 0, Some (ErrFetchStars err)), w').
Proof.
  intros Htest Hfetch Hnew Hlate.
  pose proof Hfetch as [_ Hrun]%DefaultFetchStars_Run.
  destruct (Run_deadline _ _ _ _ _ _ _ _ Hrun Hlate) as (err & He & Hto).
  simpl in He. subst e. exists err. split; [done|]. split; [done|]. split.
  - destruct (Run_extends _ _ _ _ _ _ _ _ Hrun) as (new' & Hnew' & Hacc).
    simpl in *. rewrite Hnew in Hnew'. by apply app_inv_head in Hnew' as <-.
  - unfold fetchAndProcessStars, fetchStars. by rewrite Htest, Hfetch.
Qed.

Lemma deadline_returns_partial_results_witness :
  ∃ (w' : World) (err : error),
    Some ErrDeadlineExceeded = Some err
    ∧ is_timeout err = true
    ∧ (({[ "Go" := [newStar Examples.tools] ]}, 1) : gmap string (list Star) * Z)
      = addEdges []
          (fetched [EvQuery "" Examples.start;
                    EvReply (Examples.page [Examples.tools; Examples.secret] "c1" true 4999);
                    EvSave (Examples.window 4999);
                    EvQuery "c1" (Examples.start + second);
                    EvFailure (ErrQuery "API rate limit exceeded for user ID 1")
                      {| q_RateLimit := {| Limit := 5000; Remaining := 0;
                                           ResetAt := Examples.start + 30 * minute |};
                         q_IsOverLimit := false; q_TotalCount := 0; q_Edges := [];
                         q_PageInfo := {| EndCursor := ""; HasNextPage := false |} |};
                    EvSleep (Examples.start + 2 * second)
                      (Examples.start + 30 * minute)])
          (∅, 0)
    ∧ fetchAndProcessStars []
        [Scenario.page1; Scenario.quota (Examples.start + 30 * minute)]
        Examples.config0 Examples.world0
      = Some (Return (∅, 0, Some (ErrFetchStars err)), w').
Proof.
  eexists.
  apply (deadline_returns_partial_results []
           [Scenario.page1; Scenario.quota (Examples.start + 30 * minute)]
           Examples.config0 Examples.world0).
  - reflexivity.
  - vm_compute. reflexivity.
  - vm_compute. reflexivity.
  - vm_compute. discriminate.
Defined.

(** ** Quota errors *)

(** A turn whose query fails on the quota: the loop sleeps until the reset
    time that [query] holds after the call, as far as [time.Until] reaches,
    and goes on with the same cursor, buckets and count.  The sleep is not
    cut at the deadline: if the deadline has passed when the sleep is over,
    the fetch ends then with the context's error.  What a run does next, if
    anything, is a query for the same page, and that query leaves before
    the deadline. *)
Lemma quota_failure_retries (ignored : list string) (deadline : Time) (r : Response)
  (script : list Response) (cursor : string) (lim lim1 : Limiter)
  (acc : gmap string (list Star) * Z) (w w1 w2 : World) (err : error) :
  limiter_Wait deadline lim w = (None, lim1, w1) →
  client_Query deadline cursor r w1 = (Some err, w2) →
  isRateLimitError err = true →
  w_now (slept w2) = wake (w_now w2) (ResetAt (q_RateLimit (w_query w2)))
  ∧ w_trace (slept w2)
    = w_trace w ++ [EvQuery cursor (w_now w1); EvFailure err (w_query w2);
                    EvSleep (w_now w2)
                      (wake (w_now w2) (ResetAt (q_RateLimit (w_query w2))))]
  ∧ fetchLoop ignored deadline (r :: script) cursor lim acc w
    = fetchLoop ignored deadline script cursor lim1 acc (slept w2)
  ∧ (deadline <= wake (w_now w2) (ResetAt (q_RateLimit (w_query w2))) →
     fetchLoop ignored deadline (r :: script) cursor lim acc w
     = Some ((acc.1, acc.2, Some ErrDeadlineExceeded), slept w2))
  ∧ (∀ (res : Result * World) (new : list Event),
       fetchLoop ignored deadline (r :: script) cursor lim acc w = Some res →
       w_trace res.2 = w_trace (slept w2) ++ new →
       (new = [] ∧ ∃ e, res.1.2 = Some e ∧ is_timeout e = true)
       ∨ (∃ t rest, new = EvQuery cursor t :: rest
                    ∧ wake (w_now w2) (ResetAt (q_RateLimit (w_query w2))) <= t
                      < deadline)).
Proof.
  intros Hwait Hq Hquota.
  assert (fetchLoop ignored deadline (r :: script) cursor lim acc w
          = fetchLoop ignored deadline script cursor lim1 acc (slept w2)) as Hloop.
  { rewrite (fetchLoop_unfold _ _ (r :: script)). by rewrite Hwait, Hq, Hquota. }
  split; [apply slept_now|]. split.
  { destruct (turn_quota_retry _ _ _ _ _ _ _ _ _ Hwait Hq) as (Htr & _).
    by rewrite <-slept_now. }
  split; [done|]. split.
  - intros Hlate. rewrite Hloop. apply fetchLoop_expired. by rewrite slept_now.
  - intros res new Hres Hnew. rewrite Hloop in Hres. apply fetchLoop_Run in Hres.
    rewrite <-slept_now. by eapply Run_first.
Qed.

Lemma quota_failure_retries_witness :
  w_now (slept Scenario.world_quota) = Examples.start + minute
  ∧ fetchLoop [] Scenario.deadline0
      [Scenario.quota (Examples.start + minute); Scenario.only_page] ""
      Scenario.limiter0 (∅, 0) Examples.world0
    = fetchLoop [] Scenario.deadline0 [Scenario.only_page] ""
        Scenario.limiter1 (∅, 0) (slept Scenario.world_quota).
Proof.
  destruct (quota_failure_retries [] Scenario.deadline0
              (Scenario.quota (Examples.start + minute)) [Scenario.only_page] ""
              Scenario.limiter0 Scenario.limiter1 (∅, 0) Examples.world0
              Scenario.world_wait Scenario.world_quota
              (ErrQuery "API rate limit exceeded for user ID 1"))
    as (Hnow & _ & Hloop & _).
  - vm_compute. reflexivity.
  - vm_compute. reflexivity.
  - reflexivity.
  - split; [|exact Hloop]. rewrite Hnow. vm_compute. reflexivity.
Defined.

(** C4 fails on the code: the sleep that follows a quota error is a
    [time.Sleep], which is not tied to the context.  When a query fails on
    the quota and the reset time that [query] then holds lies beyond the
    deadline, the loop does not abort when the deadline is reached: it
    sleeps on until the reset time (or for [maxDuration], if the reset time
    is further ahead than that) and only then returns the context's error,
    with the buckets and the count as they were.  No query follows.  The
    two other suspension points of the loop, [rateLimiter.Wait(ctx)] and
    [client.Query(ctx, ...)], do end at the deadline. *)
Theorem quota_sleep_outlasts_deadline (ignored : list string) (deadline : Time)
  (r : Response) (script : list Response) (cursor : string) (lim lim1 : Limiter)
  (acc : gmap string (list Star) * Z) (w w1 w2 : World) (err : error) :
  limiter_Wait deadline lim w = (None, lim1, w1) →
  client_Query deadline cursor r w1 = (Some err, w2) →
  isRateLimitError err = true →
  deadline <= w_now w + minute * 3 →
  deadline < ResetAt (q_RateLimit (w_query w2)) →
  fetchLoop ignored deadline (r :: script) cursor lim acc w
  = Some ((acc.1, acc.2, Some ErrDeadlineExceeded), slept w2)
  ∧ w_trace (slept w2)
    = w_trace w ++ [EvQuery cursor (w_now w1); EvFailure err (w_query w2);
                    EvSleep (w_now w2) (w_now (slept w2))]
  ∧ w_now w2 < deadline < w_now (slept w2)
  ∧ w_now (slept w2)
    = Z.min (ResetAt (q_RateLimit (w_query w2))) (w_now w2 + maxDuration).
Proof.
  intros Hwait Hq Hquota Hwindow Hreset.
  destruct (turn_quota_retry _ _ _ _ _ _ _ _ _ Hwait Hq) as (Htr & Hnow1 & Hnow2).
  assert (w_now w2 < deadline) as Hearly.
  { destruct (Z.lt_ge_cases (w_now w2) deadline) as [?|Hlate]; [done|].
    apply client_Query_failed in Hq as (_ & _ & Herr & _).
    rewrite (Herr Hlate) in Hquota. discriminate. }
  assert (w_now (slept w2)
          = Z.min (ResetAt (q_RateLimit (w_query w2))) (w_now w2 + maxDuration)) as Hwake.
  { rewrite slept_now. unfold wake, maxDuration, minute, second in *. lia. }
  assert (deadline < w_now (slept w2)) as Hlate.
  { rewrite Hwake. unfold maxDuration, minute, second in *. lia. }
  split; [|done].
  rewrite (fetchLoop_unfold _ _ (r :: script)), Hwait, Hq, Hquota.
  apply fetchLoop_expired. fold (slept w2). lia.
Qed.

Lemma quota_sleep_outlasts_deadline_witness :
  fetchLoop [] Scenario.deadline0
    [Scenario.quota (Examples.start + 30 * minute); Scenario.only_page] ""
    Scenario.limiter0 (∅, 0) Examples.world0
  = Some ((∅, 0, Some ErrDeadlineExceeded), slept Scenario.world_quota_late)
  ∧ Scenario.deadline0 = Examples.start + 3 * minute
  ∧ w_now (slept Scenario.world_quota_late) = Examples.start + 30 * minute.
Proof.
  destruct (quota_sleep_outlasts_deadline [] Scenario.deadline0
              (Scenario.quota (Examples.start + 30 * minute)) [Scenario.only_page] ""
              Scenario.limiter0 Scenario.limiter1 (∅, 0) Examples.world0
              Scenario.world_wait Scenario.world_quota_late
              (ErrQuery "API rate limit exceeded for user ID 1"))
    as (Hloop & _ & _ & Hnow).
  - vm_compute. reflexivity.
  - vm_compute. reflexivity.
  - reflexivity.
  - vm_compute. discriminate.
  - vm_compute. reflexivity.
  - split; [exact Hloop|]. split; [vm_compute; reflexivity|].
    rewrite Hnow. vm_compute. reflexivity.
Defined.

(** The whole fetch of that scenario: one query, the quota error, a sleep of
    half an hour less a second, and the context's error 27 minutes after
    the deadline. *)
Example fetch_sleeps_past_deadline :
  fst <$> Scenario.run_quota_late = Some (Return (∅, 0, Some ErrDeadlineExceeded))
  ∧ w_now ∘ snd <$> Scenario.run_quota_late = Some (Examples.start + 30 * minute)
  ∧ w_trace ∘ snd <$> Scenario.run_quota_late
    = Some [EvQuery "" Examples.start;
            EvFailure (ErrQuery "API rate limit exceeded for user ID 1")
              (w_query Scenario.world_quota_late);
            EvSleep (Examples.start + second) (Examples.start + 30 * minute)].
Proof. repeat split; vm_compute; reflexivity. Qed.

(** The whole fetch of that scenario: the page is asked for twice with the
    same cursor, a minute apart, and its records come once. *)
Example fetch_after_quota :
  fst <$> Scenario.run_after_quota
  = Some (Return ({[ "Go" := [newStar Examples.tools] ]}, 1, None))
  ∧ w_trace ∘ snd <$> Scenario.run_after_quota
    = Some [EvQuery "" Examples.start;
            EvFailure (ErrQuery "API rate limit exceeded for user ID 1")
              (w_query Scenario.world_quota);
            EvSleep (Examples.start + second) (Examples.start + minute);
            EvQuery "" (Examples.start + minute);
            EvReply (Examples.page [Examples.tools; Examples.secret] "" false 4999);
            EvSave (Examples.window 4999)]
  ∧ loadRateLimitInfo ∘ w_fs ∘ snd <$> Scenario.run_after_quota
    = Some (Examples.window 4999, None).
Proof. repeat split; vm_compute; reflexivity. Qed.

(** *** The same, read off the trace of a whole fetch *)

(** In a fetch that returned, nothing follows a query that failed for
    another reason than the quota: the fetch returned that error, with the
    buckets and the count of the pages that came back before it. *)
Theorem DefaultFetchStars_failure_last (ignored : list string) (script : list Response)
  (user token : string) (rateLimit : Z) (w w' : World)
  (stars : gmap string (list Star)) (total : Z) (e : option error)
  (before after : list Event) (c : string) (t : Time) (failure : error) (q : Query) :
  DefaultFetchStars ignored script user token rateLimit w
  = Some (Return (stars, total, e), w') →
  w_trace w' = w_trace w ++ before ++ EvQuery c t :: EvFailure failure q :: after →
  isRateLimitError failure = false →
  after = [] ∧ e = Some failure
  ∧ (stars, total) = addEdges ignored (fetched before) (∅, 0).
Proof.
  intros [_ Hrun]%DefaultFetchStars_Run Htr Hnq.
  apply (Run_failure _ _ _ _ _ _ _ _ _ _ _ _ _ _ Hrun Htr Hnq).
Qed.

(** X16: in a fetch that returned, a query that failed on the quota is
    followed by a sleep that ends at the reset time that the package
    variable [query] holds after the failed call: the one the failed
    response carried, if it carried data, and otherwise the one the last
    page left there, the zero time before any page.  The sleep is over at
    once if that time is not ahead, and after [maxDuration] if it is
    further ahead than that.  Then comes either nothing, the fetch ending
    with a timeout, or a query with the same cursor that leaves before the
    deadline. *)
Theorem DefaultFetchStars_quota_retry (ignored : list string) (script : list Response)
  (user token : string) (rateLimit : Z) (w w' : World)
  (stars : gmap string (list Star)) (total : Z) (e : option error)
  (before after : list Event) (c : string) (t : Time) (failure : error) (q : Query) :
  DefaultFetchStars ignored script user token rateLimit w
  = Some (Return (stars, total, e), w') →
  w_trace w' = w_trace w ++ before ++ EvQuery c t :: EvFailure failure q :: after →
  isRateLimitError failure = true →
  ∃ from rest,
    after = EvSleep from (wake from (ResetAt (q_RateLimit q))) :: rest
    ∧ t <= from
    ∧ ((rest = [] ∧ ∃ err, e = Some err ∧ is_timeout err = true)
       ∨ (∃ t' rest', rest = EvQuery c t' :: rest'
                      ∧ wake from (ResetAt (q_RateLimit q)) <= t'
                        < w_now w + minute * 3)).
Proof.
  intros [_ Hrun]%DefaultFetchStars_Run Htr Hq.
  apply (Run_quota _ _ _ _ _ _ _ _ _ _ _ _ _ _ Hrun Htr Hq).
Qed.

(** * Further properties *)

(** ** The buckets, language by language *)

Lemma bucket_of_nil ignored lng : bucket_of ignored lng [] = [].
Proof. reflexivity. Qed.

Lemma bucket_of_cons ignored lng e edges :
  bucket_of ignored lng (e :: edges)
  = if skipped ignored e then bucket_of ignored lng edges
    else if decide (language_of e = lng) then newStar e :: bucket_of ignored lng edges
    else bucket_of ignored lng edges.
Proof.
  unfold bucket_of. rewrite included_cons.
  destruct (skipped ignored e); [done|].
  rewrite filter_cons. by destruct (decide (language_of e = lng)).
Qed.

Lemma addEdge_lookup (ignored : list string) (stars : gmap string (list Star)) (total : Z)
  (e : RepoEdge) (lng : string) :
  skipped ignored e = false →
  (addEdge ignored (stars, total) e).1 !! lng
  = if decide (language_of e = lng) then Some (default [] (stars !! lng) ++ [newStar e])
    else stars !! lng.
Proof.
  intros Hskip. unfold addEdge. rewrite Hskip. fold (language_of e). simpl.
  destruct (decide (language_of e = lng)) as [<-|Hne].
  - destruct (stars !! language_of e) eqn:Hl.
    + by rewrite lookup_insert_eq, Hl.
    + by rewrite !lookup_insert_eq.
  - destruct (stars !! language_of e) eqn:Hl.
    + by rewrite lookup_insert_ne.
    + by rewrite !lookup_insert_ne.
Qed.

(** The buckets after a page: what was there, followed by the records of
    the page's included edges of that language; a language gets a bucket
    with its first record. *)
Lemma addEdges_lookup (ignored : list string) (edges : list RepoEdge)
  (acc : gmap string (list Star) * Z) (lng : string) :
  (addEdges ignored edges acc).1 !! lng
  = match acc.1 !! lng with
    | Some bucket => Some (bucket ++ bucket_of ignored lng edges)
    | None => nonempty_bucket (bucket_of ignored lng edges)
    end.
Proof.
  revert acc. induction edges as [|e edges IH]; intros [stars total].
  - simpl. destruct (stars !! lng); [by rewrite app_nil_r|done].
  - rewrite addEdges_cons, bucket_of_cons, IH.
    destruct (skipped ignored e) eqn:Hskip.
    { by rewrite addEdge_skipped. }
    destruct (addEdge ignored (stars, total) e) as [stars1 total1] eqn:Hadd.
    pose proof (addEdge_lookup ignored stars total e lng Hskip) as Hl.
    rewrite Hadd in Hl. simpl in *. rewrite Hl.
    destruct (decide (language_of e = lng)); [|done].
    destruct (stars !! lng); simpl; [by rewrite <-app_assoc|done].
Qed.

(** ** Queries, cursors and the clock *)

Lemma query_within_weaken (from from' deadline : Time) (tr : list Event) :
  from <= from' →
  Forall (query_within from' deadline) tr → Forall (query_within from deadline) tr.
Proof.
  intros Hle Hall. eapply Forall_impl; [exact Hall|].
  intros [] ?; simpl in *; try done. lia.
Qed.

Ltac solve_within :=
  repeat match goal with
         | |- Forall _ [] => apply List.Forall_nil
         | |- Forall _ (_ :: _) => apply List.Forall_cons; [simpl; first [done | lia]|]
         end.

Lemma slept_ge (w : World) : w_now w <= w_now (slept w).
Proof. rewrite slept_now. unfold wake. lia. Qed.

Lemma Run_queries (ignored : list string) (deadline : Time) (script : list Response)
  (cursor : string) (lim : Limiter) (acc : gmap string (list Star) * Z) (w : World)
  (res : Result * World) (new : list Event) :
  Run ignored deadline script cursor lim acc w res →
  w_trace res.2 = w_trace w ++ new →
  Forall (query_within (w_now w) deadline) new.
Proof.
  intros H. revert new. induction_Run H; intros new Hnew.
  - apply limiter_Wait_failed in Hwait as [-> _]. simpl in Hnew.
    rewrite <-(app_nil_r (w_trace w)) in Hnew at 1. by apply app_inv_head in Hnew as <-.
  - destruct (turn_query_failed _ _ _ _ _ _ _ _ _ Hwait Hq) as (Htr & Hnow & _).
    simpl in Hnew. rewrite Htr in Hnew. apply app_inv_head in Hnew as <-.
    solve_within.
  - destruct (turn_quota_retry _ _ _ _ _ _ _ _ _ Hwait Hq) as (Htr & Hnow & Hnow2).
    destruct (Run_rest _ _ _ _ _ _ _ _ _ _ _ Hrun Htr Hnew) as (rest & -> & Hrest).
    apply Forall_app. split; [solve_within|].
    apply (query_within_weaken _ (w_now (slept w2))); [|by apply IH].
    pose proof (slept_ge w2). lia.
  - destruct (turn_page _ _ _ _ _ _ _ _ Hwait Hq) as (Htr & Hnow & _).
    cbn [snd] in Hnew. rewrite Htr in Hnew. apply app_inv_head in Hnew as <-.
    solve_within.
  - destruct (turn_page _ _ _ _ _ _ _ _ Hwait Hq) as (Htr & Hnow & Hnow2).
    destruct (Run_rest _ _ _ _ _ _ _ _ _ _ _ Hrun Htr Hnew) as (rest & -> & Hrest).
    apply Forall_app. split; [solve_within|].
    apply (query_within_weaken _ (w_now (saved w2))); [|by apply IH].
    apply client_Query_ok in Hq as (_ & ? & _). rewrite saved_now. lia.
Qed.

Lemma cursor_after_app (cursor : string) (tr1 tr2 : list Event) :
  cursor_after cursor (tr1 ++ tr2) = cursor_after (cursor_after cursor tr1) tr2.
Proof.
  revert cursor. induction tr1 as [|ev tr1 IH]; intros cursor; simpl; [done|].
  by destruct ev.
Qed.

Lemma Run_cursors (ignored : list string) (deadline : Time) (script : list Response)
  (cursor : string) (lim : Limiter) (acc : gmap string (list Star) * Z) (w : World)
  (res : Result * World) (before after : list Event) (c : string) (t : Time) :
  Run ignored deadline script cursor lim acc w res →
  w_trace res.2 = w_trace w ++ before ++ EvQuery c t :: after →
  c = cursor_after cursor before.
Proof.
  intros H. revert before. induction_Run H; intros before Hnew.
  - apply limiter_Wait_failed in Hwait as [-> _]. simpl in Hnew.
    rewrite <-(app_nil_r (w_trace w)) in Hnew at 1. apply app_inv_head in Hnew.
    by destruct before.
  - destruct (turn_query_failed _ _ _ _ _ _ _ _ _ Hwait Hq) as (Htr & _).
    simpl in Hnew. rewrite Htr in Hnew. apply app_inv_head in Hnew.
    destruct before as [|? [|? [|? ?]]]; by simplify_eq/=.
  - destruct (turn_quota_retry _ _ _ _ _ _ _ _ _ Hwait Hq) as (Htr & _).
    destruct (Run_rest _ _ _ _ _ _ _ _ _ _ _ Hrun Htr Hnew) as (rest & Hsplit & Hrest).
    destruct before as [|? [|? [|? before]]]; simplify_eq/=; [done|].
    by apply (IH before).
  - destruct (turn_page _ _ _ _ _ _ _ _ Hwait Hq) as (Htr & _).
    cbn [snd] in Hnew. rewrite Htr in Hnew. apply app_inv_head in Hnew.
    destruct before as [|? [|? [|? [|? ?]]]]; by simplify_eq/=.
  - destruct (turn_page _ _ _ _ _ _ _ _ Hwait Hq) as (Htr & _).
    destruct (Run_rest _ _ _ _ _ _ _ _ _ _ _ Hrun Htr Hnew) as (rest & Hsplit & Hrest).
    destruct before as [|? [|? [|? before]]]; simplify_eq/=; [done|].
    by apply (IH before).
Qed.

(** ** The last page and the state file *)

Lemma Run_success_end (ignored : list string) (deadline : Time) (script : list Response)
  (cursor : string) (lim : Limiter) (acc : gmap string (list Star) * Z) (w : World)
  (res : Result * World) (new : list Event) :
  Run ignored deadline script cursor lim acc w res →
  w_trace res.2 = w_trace w ++ new →
  res.1.2 = None →
  ∃ before c t q,
    new = before ++ [EvQuery c t; EvReply q; EvSave (q_RateLimit q)]
    ∧ HasNextPage (q_PageInfo q) = false.
Proof.
  intros H. revert new. induction_Run H; intros new Hnew Hok; try done.
  - destruct (turn_quota_retry _ _ _ _ _ _ _ _ _ Hwait Hq) as (Htr & _).
    destruct (Run_rest _ _ _ _ _ _ _ _ _ _ _ Hrun Htr Hnew) as (rest & -> & Hrest).
    destruct (IH rest Hrest Hok) as (before & c & t & q & -> & Hlast).
    eexists (_ ++ before), c, t, q. by rewrite <-app_assoc.
  - destruct (turn_page _ _ _ _ _ _ _ _ Hwait Hq) as (Htr & _).
    cbn [snd] in Hnew. rewrite Htr in Hnew. apply app_inv_head in Hnew as <-.
    exists [], cursor, (w_now w1), (w_query w2). by rewrite saved_query in Hnext.
  - destruct (turn_page _ _ _ _ _ _ _ _ Hwait Hq) as (Htr & _).
    destruct (Run_rest _ _ _ _ _ _ _ _ _ _ _ Hrun Htr Hnew) as (rest & -> & Hrest).
    destruct (IH rest Hrest Hok) as (before & c & t & q & -> & Hlast).
    eexists (_ ++ before), c, t, q. by rewrite <-app_assoc.
Qed.

Lemma Run_last_page_ends (ignored : list string) (deadline : Time) (script : list Response)
  (cursor : string) (lim : Limiter) (acc : gmap string (list Star) * Z) (w : World)
  (res : Result * World) (before after : list Event) (q : Query) :
  Run ignored deadline script cursor lim acc w res →
  w_trace res.2 = w_trace w ++ before ++ EvReply q :: after →
  HasNextPage (q_PageInfo q) = false →
  after = [EvSave (q_RateLimit q)] ∧ res.1.2 = None.
Proof.
  intros H. revert before. induction_Run H; intros before Hnew Hlast.
  - apply limiter_Wait_failed in Hwait as [-> _]. simpl in Hnew.
    rewrite <-(app_nil_r (w_trace w)) in Hnew at 1. apply app_inv_head in Hnew.
    by destruct before.
  - destruct (turn_query_failed _ _ _ _ _ _ _ _ _ Hwait Hq) as (Htr & _).
    simpl in Hnew. rewrite Htr in Hnew. apply app_inv_head in Hnew.
    destruct before as [|? [|? [|? ?]]]; by simplify_eq/=.
  - destruct (turn_quota_retry _ _ _ _ _ _ _ _ _ Hwait Hq) as (Htr & _).
    destruct (Run_rest _ _ _ _ _ _ _ _ _ _ _ Hrun Htr Hnew) as (rest & Hsplit & Hrest).
    destruct before as [|? [|? [|? before]]]; simplify_eq/=.
    by apply (IH before).
  - destruct (turn_page _ _ _ _ _ _ _ _ Hwait Hq) as (Htr & _).
    cbn [snd] in Hnew. rewrite Htr in Hnew. apply app_inv_head in Hnew.
    destruct before as [|? [|? [|? [|? ?]]]]; by simplify_eq/=.
  - destruct (turn_page _ _ _ _ _ _ _ _ Hwait Hq) as (Htr & _).
    destruct (Run_rest _ _ _ _ _ _ _ _ _ _ _ Hrun Htr Hnew) as (rest & Hsplit & Hrest).
    rewrite saved_query in Hnext.
    destruct before as [|? [|? [|? before]]]; simplify_eq/=; [congruence|].
    by apply (IH before).
Qed.

(** *** The state file *)

Lemma saveRateLimitInfo_frame (info : RateLimitInfo) (fs : FileSystem) :
  fs_readonly (saveRateLimitInfo info fs).2 = fs_readonly fs
  ∧ ∀ path, path ≠ rate_limit_file →
      fs_files (saveRateLimitInfo info fs).2 !! path = fs_files fs !! path.
Proof.
  unfold saveRateLimitInfo, os_WriteFile.
  destruct (json_Marshal info) as [[doc|] [err|]]; try done.
  destruct (fs_readonly fs) eqn:Hro; simpl; [done|].
  split; [done|]. intros path Hne. by rewrite lookup_insert_ne.
Qed.

Lemma json_Marshal_storable (info : RateLimitInfo) :
  storable info → ∃ doc, json_Marshal info = (Some doc, None).
Proof.
  intros (_ & _ & Hlo & Hhi). unfold json_Marshal.
  apply Z.leb_le in Hlo. apply Z.ltb_lt in Hhi. rewrite Hlo, Hhi. simpl. eauto.
Qed.

Lemma save_then_load (info : RateLimitInfo) (fs : FileSystem) :
  fs_readonly fs = false → storable info →
  loadRateLimitInfo (saveRateLimitInfo info fs).2 = (info, None).
Proof.
  intros Hro Hst. destruct (json_Marshal_storable info Hst) as [doc Hdoc].
  destruct Hst as (Hl & Hr & _).
  unfold saveRateLimitInfo, loadRateLimitInfo. rewrite Hdoc.
  destruct (os_WriteFile rate_limit_file (Document doc) fs) as [err fs'] eqn:Hw.
  assert (err = None) as ->.
  { unfold os_WriteFile in Hw. rewrite Hro in Hw. by simplify_eq. }
  simpl. rewrite (os_ReadFile_WriteFile _ _ _ _ Hw).
  by rewrite (json_Unmarshal_Marshal info doc).
Qed.

Lemma last_reply_default (last : option Query) (trace : list Event) :
  last_reply last trace
  = match last_reply None trace with
    | Some q => Some q
    | None => last
    end.
Proof.
  revert last. induction trace as [|ev trace IH]; intros last; simpl; [done|].
  destruct ev; try apply IH.
  rewrite (IH (Some q)). by destruct (last_reply None trace).
Qed.

Lemma saved_fs (w : World) :
  w_fs (saved w) = (saveRateLimitInfo (q_RateLimit (w_query w)) (w_fs w)).2.
Proof. reflexivity. Qed.

Lemma slept_fs (w : World) : w_fs (slept w) = w_fs w.
Proof. reflexivity. Qed.

Lemma Run_state_file (ignored : list string) (deadline : Time) (script : list Response)
  (cursor : string) (lim : Limiter) (acc : gmap string (list Star) * Z) (w : World)
  (res : Result * World) (new : list Event) :
  Run ignored deadline script cursor lim acc w res →
  w_trace res.2 = w_trace w ++ new →
  fs_readonly (w_fs w) = false →
  fs_readonly (w_fs res.2) = false
  ∧ match last_reply None new with
    | Some q => storable (q_RateLimit q) →
                loadRateLimitInfo (w_fs res.2) = (q_RateLimit q, None)
    | None => w_fs res.2 = w_fs w
    end.
Proof.
  intros H. revert new. induction_Run H; intros new Hnew Hro.
  - apply limiter_Wait_failed in Hwait as [-> _]. simpl in Hnew.
    rewrite <-(app_nil_r (w_trace w)) in Hnew at 1. by apply app_inv_head in Hnew as <-.
  - destruct (turn_query_failed _ _ _ _ _ _ _ _ _ Hwait Hq) as (Htr & _).
    apply limiter_Wait_ok in Hwait as (_ & _ & Hfs1 & _).
    apply client_Query_failed in Hq as (_ & _ & _ & Hfs2).
    simpl in Hnew. rewrite Htr in Hnew. apply app_inv_head in Hnew as <-. simpl.
    by rewrite Hfs2, Hfs1.
  - destruct (turn_quota_retry _ _ _ _ _ _ _ _ _ Hwait Hq) as (Htr & _).
    destruct (Run_rest _ _ _ _ _ _ _ _ _ _ _ Hrun Htr Hnew) as (rest & -> & Hrest).
    apply limiter_Wait_ok in Hwait as (_ & _ & Hfs1 & _).
    apply client_Query_failed in Hq as (_ & _ & _ & Hfs2).
    assert (w_fs (slept w2) = w_fs w) as Hfs by by rewrite slept_fs, Hfs2, Hfs1.
    destruct (IH rest Hrest) as [Hro' Hfile]; [by rewrite Hfs|].
    split; [done|]. simpl. by rewrite <-Hfs.
  - destruct (turn_page _ _ _ _ _ _ _ _ Hwait Hq) as (Htr & _).
    apply limiter_Wait_ok in Hwait as (_ & _ & Hfs1 & _).
    apply client_Query_ok in Hq as (_ & _ & Hfs2).
    cbn [snd] in *. rewrite Htr in Hnew. apply app_inv_head in Hnew as <-.
    cbn [last_reply]. rewrite saved_fs, Hfs2, Hfs1.
    split; [by rewrite (proj1 (saveRateLimitInfo_frame _ _))|].
    intros Hst. by apply save_then_load.
  - destruct (turn_page _ _ _ _ _ _ _ _ Hwait Hq) as (Htr & _).
    destruct (Run_rest _ _ _ _ _ _ _ _ _ _ _ Hrun Htr Hnew) as (rest & -> & Hrest).
    apply limiter_Wait_ok in Hwait as (_ & _ & Hfs1 & _).
    apply client_Query_ok in Hq as (_ & _ & Hfs2).
    assert (fs_readonly (w_fs (saved w2)) = false) as Hro2.
    { by rewrite saved_fs, (proj1 (saveRateLimitInfo_frame _ _)), Hfs2, Hfs1. }
    destruct (IH rest Hrest Hro2) as [Hro' Hfile].
    split; [done|]. simpl. rewrite last_reply_default.
    destruct (last_reply None rest) as [q|]; [done|].
    intros Hst. rewrite Hfile, saved_fs, Hfs2, Hfs1. by apply save_then_load.
Qed.

Lemma Run_files (ignored : list string) (deadline : Time) (script : list Response)
  (cursor : string) (lim : Limiter) (acc : gmap string (list Star) * Z) (w : World)
  (res : Result * World) :
  Run ignored deadline script cursor lim acc w res →
  fs_readonly (w_fs res.2) = fs_readonly (w_fs w)
  ∧ ∀ path, path ≠ rate_limit_file →
      fs_files (w_fs res.2) !! path = fs_files (w_fs w) !! path.
Proof.
  intros H. induction_Run H.
  - by apply limiter_Wait_failed in Hwait as [-> _].
  - apply limiter_Wait_ok in Hwait as (_ & _ & Hfs1 & _).
    apply client_Query_failed in Hq as (_ & _ & _ & Hfs2).
    simpl. by rewrite Hfs2, Hfs1.
  - apply limiter_Wait_ok in Hwait as (_ & _ & Hfs1 & _).
    apply client_Query_failed in Hq as (_ & _ & _ & Hfs2).
    by rewrite slept_fs, Hfs2, Hfs1 in IH.
  - apply limiter_Wait_ok in Hwait as (_ & _ & Hfs1 & _).
    apply client_Query_ok in Hq as (_ & _ & Hfs2).
    cbn [snd]. rewrite saved_fs, Hfs2, Hfs1. apply saveRateLimitInfo_frame.
  - apply limiter_Wait_ok in Hwait as (_ & _ & Hfs1 & _).
    apply client_Query_ok in Hq as (_ & _ & Hfs2).
    rewrite saved_fs, Hfs2, Hfs1 in IH. destruct IH as [IHro IHf].
    destruct (saveRateLimitInfo_frame (q_RateLimit (w_query w2)) (w_fs w)) as [Hro Hf].
    split; [by rewrite IHro|]. intros path Hne. by rewrite IHf, Hf.
Qed.

(** ** Whole fetches *)

Lemma DefaultFetchStars_new (ignored : list string) (script : list Response)
  (user token : string) (rateLimit : Z) (w w' : World) (res : Result)
  (new : list Event) :
  DefaultFetchStars ignored script user token rateLimit w = Some (Return res, w') →
  w_trace w' = w_trace w ++ new →
  res.1 = addEdges ignored (fetched new) (∅, 0).
Proof.
  intros [_ Hrun]%DefaultFetchStars_Run Hnew.
  apply Run_extends in Hrun as (new' & Hnew' & Hacc). simpl in *.
  rewrite Hnew in Hnew'. by apply app_inv_head in Hnew' as <-.
Qed.

Lemma DefaultFetchStars_lookup (ignored : list string) (script : list Response)
  (user token : string) (rateLimit : Z) (w w' : World) (res : Result)
  (new : list Event) (lng : string) :
  DefaultFetchStars ignored script user token rateLimit w = Some (Return res, w') →
  w_trace w' = w_trace w ++ new →
  res.1.1 !! lng = nonempty_bucket (bucket_of ignored lng (fetched new)).
Proof.
  intros Hrun Hnew.
  rewrite (DefaultFetchStars_new _ _ _ _ _ _ _ _ _ Hrun Hnew), addEdges_lookup.
  simpl. by rewrite lookup_empty.
Qed.

Lemma fetchAndProcessStars_lookup (ignored : list string) (script : list Response)
  (config : Config) (w w' : World) (stars : gmap string (list Star)) (total : Z)
  (new : list Event) (lng : string) :
  Test config = false →
  fetchAndProcessStars ignored script config w = Some (Return (stars, total, None), w') →
  w_trace w' = w_trace w ++ new →
  stars !! lng
  = sort_Slice lessByName <$> nonempty_bucket (bucket_of ignored lng (fetched new)).
Proof.
  unfold fetchAndProcessStars, fetchStars. intros -> Hrun Hnew.
  destruct (DefaultFetchStars _ _ _ _ _ _) as [[[[[stars0 t] [err|]]|msg] w1]|] eqn:Hfetch;
    try done.
  simplify_eq. rewrite lookup_fmap.
  by rewrite <-(DefaultFetchStars_lookup _ _ _ _ _ _ _ _ _ lng Hfetch Hnew).
Qed.

Lemma elem_of_included (ignored : list string) (edges : list RepoEdge) (e : RepoEdge) :
  e ∈ included ignored edges ↔ e ∈ edges ∧ skipped ignored e = false.
Proof.
  unfold included. rewrite !list_elem_of_In, filter_In.
  destruct (skipped ignored e); simpl; split; intros [? ?]; done.
Qed.

Lemma elem_of_bucket_of (ignored : list string) (lng : string) (edges : list RepoEdge)
  (s : Star) :
  s ∈ bucket_of ignored lng edges ↔
  ∃ e, e ∈ edges ∧ skipped ignored e = false ∧ language_of e = lng ∧ s = newStar e.
Proof.
  unfold bucket_of. rewrite list_elem_of_fmap. split.
  - intros (e & -> & Hin). apply list_elem_of_filter in Hin as [Hl Hin].
    apply elem_of_included in Hin as [Hin Hs]. by exists e.
  - intros (e & He & Hs & Hl & ->). exists e. split; [done|].
    apply list_elem_of_filter. split; [done|]. by apply elem_of_included.
Qed.

(** ** The [.env] file and the environment *)

Lemma append_cons (c : ascii) (s t : string) : String c s +:+ t = String c (s +:+ t).
Proof. reflexivity. Qed.

Lemma append_nil_l (t : string) : "" +:+ t = t.
Proof. reflexivity. Qed.

Lemma append_assoc (s t u : string) : (s +:+ t) +:+ u = s +:+ (t +:+ u).
Proof.
  induction s as [|c s IH]; [done|]. by rewrite !append_cons, IH.
Qed.

Section Trimming.
Context (cutset : string).

Lemma TrimLeft_head_free (s : string) : head_free cutset (strings.TrimLeft s cutset).
Proof.
  induction s as [|c s IH]; simpl; [done|].
  by destruct (strings.in_cutset c cutset) eqn:Hc.
Qed.

Lemma TrimLeft_fixed (s : string) : head_free cutset s ↔ strings.TrimLeft s cutset = s.
Proof.
  split.
  - destruct s as [|c s]; simpl; [done|]. by intros ->.
  - intros <-. apply TrimLeft_head_free.
Qed.

Lemma TrimLeft_idem (s : string) :
  strings.TrimLeft (strings.TrimLeft s cutset) cutset = strings.TrimLeft s cutset.
Proof. apply TrimLeft_fixed, TrimLeft_head_free. Qed.

Lemma TrimRight_cons (c : ascii) (s : string) :
  strings.TrimRight (String c s) cutset
  = if String.eqb (strings.TrimRight s cutset) "" && strings.in_cutset c cutset then ""
    else String c (strings.TrimRight s cutset).
Proof. simpl. by destruct (strings.TrimRight s cutset), (strings.in_cutset c cutset). Qed.

Lemma TrimRight_cons_free (c : ascii) (s : string) :
  strings.in_cutset c cutset = false →
  strings.TrimRight (String c s) cutset = String c (strings.TrimRight s cutset).
Proof. intros Hc. by rewrite TrimRight_cons, Hc, andb_false_r. Qed.

Lemma TrimRight_fixed_tail (c : ascii) (s : string) :
  strings.TrimRight (String c s) cutset = String c s → strings.TrimRight s cutset = s.
Proof.
  rewrite TrimRight_cons. destruct (_ && _); [done|]. by intros [= ->].
Qed.

Lemma TrimRight_idem (s : string) :
  strings.TrimRight (strings.TrimRight s cutset) cutset = strings.TrimRight s cutset.
Proof.
  induction s as [|c s IH]; [done|]. rewrite (TrimRight_cons c s).
  destruct (String.eqb_spec (strings.TrimRight s cutset) "") as [He|Hne]; cbn [andb].
  - destruct (strings.in_cutset c cutset) eqn:Hc; [done|].
    by rewrite He, TrimRight_cons_free.
  - rewrite TrimRight_cons, IH.
    by destruct (String.eqb_spec (strings.TrimRight s cutset) "").
Qed.

(** Trimming on the left keeps a right end that is already trimmed. *)
Lemma TrimRight_TrimLeft (s : string) :
  strings.TrimRight s cutset = s →
  strings.TrimRight (strings.TrimLeft s cutset) cutset = strings.TrimLeft s cutset.
Proof.
  induction s as [|c s IH]; [done|]. intros Hfix. simpl.
  destruct (strings.in_cutset c cutset); [|done].
  by apply IH, (TrimRight_fixed_tail c).
Qed.

(** Trimming on the right keeps the first byte, if anything is left. *)
Lemma TrimRight_head (c : ascii) (s : string) :
  strings.TrimRight (String c s) cutset = ""
  ∨ ∃ t, strings.TrimRight (String c s) cutset = String c t.
Proof. rewrite TrimRight_cons. destruct (_ && _); eauto. Qed.

Lemma TrimRight_head_free (s : string) :
  head_free cutset s → head_free cutset (strings.TrimRight s cutset).
Proof.
  destruct s as [|c s]; [done|]. intros Hc.
  by destruct (TrimRight_head c s) as [->|[t ->]].
Qed.

(** Trimming on the right removes bytes only. *)
Lemma TrimRight_in_cutset (d : ascii) (s : string) :
  strings.in_cutset d s = false → strings.in_cutset d (strings.TrimRight s cutset) = false.
Proof.
  induction s as [|c s IH]; [done|]. simpl.
  intros [Hc Hs]%orb_false_elim.
  destruct (strings.TrimRight s cutset) eqn:Ht.
  - destruct (strings.in_cutset c cutset); simpl; [done|]. by rewrite Hc.
  - simpl in *. rewrite Hc. by apply IH.
Qed.

Lemma TrimRight_app (s t : string) :
  strings.TrimRight t cutset ≠ "" →
  strings.TrimRight (s +:+ t) cutset = s +:+ strings.TrimRight t cutset.
Proof.
  intros Ht. induction s as [|c s IH]; [done|].
  rewrite append_cons, TrimRight_cons, IH, append_cons.
  destruct (String.eqb_spec (s +:+ strings.TrimRight t cutset) "") as [He|Hne]; [|done].
  destruct s; [done|discriminate].
Qed.

Lemma TrimRight_app_trimmed (s t : string) :
  strings.TrimRight t cutset = "" →
  strings.TrimRight (s +:+ t) cutset = strings.TrimRight s cutset.
Proof.
  intros Ht. induction s as [|c s IH]; [done|].
  by rewrite append_cons, !TrimRight_cons, IH.
Qed.

End Trimming.

Lemma TrimLeft_spaces (n : nat) (s : string) :
  strings.TrimLeft (spaces n +:+ s) " " = strings.TrimLeft s " ".
Proof. induction n as [|n IH]; [done|]. cbn [spaces]. by rewrite append_cons. Qed.

Lemma TrimRight_spaces (n : nat) : strings.TrimRight (spaces n) " " = "".
Proof. induction n as [|n IH]; [done|]. simpl. by rewrite IH. Qed.

Lemma in_cutset_spaces (c : ascii) (n : nat) :
  c ≠ " "%char → strings.in_cutset c (spaces n) = false.
Proof.
  intros Hc. induction n as [|n IH]; [done|]. simpl. rewrite IH, orb_false_r.
  by apply Ascii.eqb_neq.
Qed.

Lemma in_cutset_app (c : ascii) (s t : string) :
  strings.in_cutset c (s +:+ t) = strings.in_cutset c s || strings.in_cutset c t.
Proof.
  induction s as [|d s IH]; [done|]. rewrite append_cons. simpl.
  by rewrite IH, orb_assoc.
Qed.

(** [strings.Contains] of one byte. *)
Lemma Contains_byte (s : string) (c : ascii) :
  strings.Contains s (String c "") = strings.in_cutset c s.
Proof.
  induction s as [|d s IH]; [done|]. simpl. rewrite IH. f_equal.
  destruct (ascii_dec c d) as [->|Hne].
  - rewrite Ascii.eqb_refl. destruct (ascii_dec d d); [|done]. by destruct s.
  - apply Ascii.eqb_neq in Hne as Hne'. rewrite Hne'. by destruct (ascii_dec c d).
Qed.

Lemma HasPrefix_byte (s : string) (c : ascii) :
  strings.HasPrefix s (String c "") = true ↔ ∃ t, s = String c t.
Proof.
  unfold strings.HasPrefix. destruct s as [|d s]; simpl.
  - split; [done|]. by intros [t ?].
  - destruct (ascii_dec c d) as [->|Hne].
    + split; [eauto|]. intros _. by destruct s.
    + split; [done|]. intros [t [= ]]. congruence.
Qed.

Lemma SplitN_2_length (s : string) (sep : ascii) :
  (∃ a, strings.SplitN_2 s sep = [a]) ∨ (∃ a b, strings.SplitN_2 s sep = [a; b]).
Proof.
  induction s as [|c s IH]; simpl; [eauto|].
  destruct (Ascii.eqb c sep); [eauto|].
  destruct IH as [[a ->]|(a & b & ->)]; eauto.
Qed.

(** Cutting at the first separator: the two parts put the string back
    together, and the first part has no separator. *)
Lemma SplitN_2_cut (s : string) (sep : ascii) (a b : string) :
  strings.SplitN_2 s sep = [a; b] ↔
  s = a +:+ String sep b ∧ strings.in_cutset sep a = false.
Proof.
  revert a. induction s as [|c s IH]; intros a; simpl.
  - split; [done|]. intros [Hs _]. by destruct a.
  - destruct (Ascii.eqb_spec c sep) as [->|Hne].
    + split.
      * intros [= <- <-]. done.
      * intros [Hs Ha]. destruct a as [|d a].
        { rewrite append_nil_l in Hs. by simplify_eq. }
        rewrite append_cons in Hs. simplify_eq. simpl in Ha.
        by rewrite Ascii.eqb_refl in Ha.
    + split.
      * destruct (strings.SplitN_2 s sep) as [|a' [|b' [|? ?]]] eqn:Hs; try done.
        intros [= <- <-]. destruct (proj1 (IH a') eq_refl) as [-> Ha].
        split; [done|]. simpl. rewrite Ha, orb_false_r.
        apply Ascii.eqb_neq. congruence.
      * intros [Hs Ha]. destruct a as [|d a].
        { rewrite append_nil_l in Hs. by simplify_eq. }
        rewrite append_cons in Hs. simplify_eq. simpl in Ha.
        apply orb_false_elim in Ha as [_ Ha].
        by rewrite (proj2 (IH a) (conj eq_refl Ha)).
Qed.

Lemma head_free_app (cutset a t : string) :
  head_free cutset (a +:+ t) → head_free cutset a.
Proof. by destruct a. Qed.

Lemma TrimRight_starts (cutset s t : string) (c : ascii) :
  strings.TrimRight s cutset = String c t → ∃ s', s = String c s'.
Proof.
  destruct s as [|d s]; [done|].
  destruct (TrimRight_head cutset d s) as [->|[t' ->]]; [done|]. intros [= -> _]. eauto.
Qed.

Lemma TrimRight_fixed_suffix (cutset a b : string) (sep : ascii) :
  strings.TrimRight (a +:+ String sep b) cutset = a +:+ String sep b →
  strings.TrimRight b cutset = b.
Proof.
  induction a as [|c a IH].
  - rewrite append_nil_l. apply TrimRight_fixed_tail.
  - rewrite append_cons. intros Hfix. by apply IH, (TrimRight_fixed_tail cutset c).
Qed.

Lemma Trim_fixed (text : string) :
  head_free " " (strings.Trim text " ")
  ∧ strings.TrimRight (strings.Trim text " ") " " = strings.Trim text " ".
Proof.
  unfold strings.Trim. split; [apply TrimLeft_head_free|].
  apply TrimRight_TrimLeft, TrimRight_idem.
Qed.

(** What a line adds, if it adds anything, is a trimmed key without "="
    and "#" in front, and a trimmed value. *)
Lemma parseEnvLine_entries (env : gmap string string) (text : string) :
  (∀ k v, env !! k = Some v → env_key k ∧ env_value v) →
  ∀ k v, parseEnvLine env text !! k = Some v → env_key k ∧ env_value v.
Proof.
  intros Henv. unfold parseEnvLine.
  destruct (Trim_fixed text) as [Hhead Hright].
  destruct (String.eqb (strings.Trim text " ") "") eqn:Hempty; [done|].
  destruct (strings.HasPrefix (strings.Trim text " ") "#") eqn:Hcomment; [done|]. simpl.
  destruct (SplitN_2_length (strings.Trim text " ") "=") as [[a Ha]|(a & b & Hab)];
    rewrite ?Ha, ?Hab; [done|].
  apply SplitN_2_cut in Hab as [Hl Hsep]. rewrite Hl in Hhead, Hright, Hcomment.
  intros k v Hk. destruct (decide (strings.TrimRight a " " = k)) as [<-|Hne].
  - rewrite lookup_insert_eq in Hk. simplify_eq. split; [split_and!|split].
    + apply TrimLeft_fixed, TrimRight_head_free. by apply head_free_app in Hhead.
    + apply TrimRight_idem.
    + rewrite Contains_byte. by apply TrimRight_in_cutset.
    + destruct (strings.HasPrefix (strings.TrimRight a " ") "#") eqn:Hp; [|done].
      apply HasPrefix_byte in Hp as [t Ht]. apply TrimRight_starts in Ht as [a' ->].
      rewrite append_cons in Hcomment.
      by rewrite (proj2 (HasPrefix_byte _ _) (ex_intro _ _ eq_refl)) in Hcomment.
    + apply TrimLeft_idem.
    + apply TrimRight_TrimLeft. by apply TrimRight_fixed_suffix in Hright.
  - rewrite lookup_insert_ne in Hk by done. by apply Henv.
Qed.

Lemma TrimRight_value (v : string) (n3 n4 : nat) :
  strings.TrimRight v " " = v →
  strings.TrimRight (spaces n3 +:+ v +:+ spaces n4) " "
  = if String.eqb v "" then "" else spaces n3 +:+ v.
Proof.
  intros Hv. destruct (String.eqb_spec v "") as [->|Hne].
  - rewrite append_nil_l.
    by rewrite TrimRight_app_trimmed, TrimRight_spaces by apply TrimRight_spaces.
  - rewrite TrimRight_app; rewrite TrimRight_app_trimmed by apply TrimRight_spaces;
      by rewrite Hv.
Qed.

(** A line [key = value], with any number of spaces around the key, the
    "=" and the value, sets the key to the value. *)
Lemma parseEnvLine_assignment (env : gmap string string) (k v : string)
  (n1 n2 n3 n4 : nat) :
  env_key k → env_value v →
  parseEnvLine env (spaces n1 +:+ k +:+ spaces n2 +:+ "=" +:+ spaces n3 +:+ v +:+ spaces n4)
  = <[k := v]> env.
Proof.
  intros (Hkl & Hkr & Hkeq & Hkc) (Hvl & Hvr).
  rewrite Contains_byte in Hkeq.
  set (rest := if String.eqb v "" then "" else spaces n3 +:+ v).
  assert (strings.TrimLeft rest " " = v) as Hrest.
  { unfold rest. destruct (String.eqb_spec v "") as [->|Hne]; [done|].
    by rewrite TrimLeft_spaces. }
  assert (strings.Trim
            (spaces n1 +:+ k +:+ spaces n2 +:+ "=" +:+ spaces n3 +:+ v +:+ spaces n4) " "
          = strings.TrimLeft (k +:+ spaces n2 +:+ String "=" rest) " ") as Htrim.
  { unfold strings.Trim.
    change ("=" +:+ spaces n3 +:+ v +:+ spaces n4)
      with (String "=" (spaces n3 +:+ v +:+ spaces n4)).
    assert (strings.TrimRight (String "=" (spaces n3 +:+ v +:+ spaces n4)) " "
            = String "=" rest) as Heq.
    { rewrite TrimRight_cons_free by done. by rewrite TrimRight_value. }
    assert (∀ s, strings.TrimRight (s +:+ String "=" (spaces n3 +:+ v +:+ spaces n4)) " "
                 = s +:+ String "=" rest) as Htail.
    { intros s. rewrite TrimRight_app; by rewrite Heq. }
    rewrite <- (append_assoc k), <- (append_assoc (spaces n1)), Htail.
    by rewrite !append_assoc, TrimLeft_spaces. }
  unfold parseEnvLine. rewrite Htrim. clear Htrim.
  destruct k as [|c k].
  - rewrite append_nil_l, TrimLeft_spaces. simpl. by rewrite Hrest.
  - apply TrimLeft_fixed in Hkl.
    assert (strings.TrimLeft (String c k +:+ spaces n2 +:+ String "=" rest) " "
            = String c (k +:+ spaces n2 +:+ String "=" rest)) as ->.
    { rewrite append_cons. by apply TrimLeft_fixed. }
    assert (strings.HasPrefix (String c (k +:+ spaces n2 +:+ String "=" rest)) "#" = false)
      as ->.
    { destruct (strings.HasPrefix (String c (k +:+ spaces n2 +:+ String "=" rest)) "#")
        eqn:Hp; [|done].
      apply HasPrefix_byte in Hp as [t [= -> _]].
      by rewrite (proj2 (HasPrefix_byte _ _) (ex_intro _ _ eq_refl)) in Hkc. }
    assert (strings.SplitN_2 (String c (k +:+ spaces n2 +:+ String "=" rest)) "="
            = [String c k +:+ spaces n2; rest]) as ->.
    { apply SplitN_2_cut. rewrite append_assoc, append_cons. split; [done|].
      by rewrite in_cutset_app, Hkeq, in_cutset_spaces. }
    cbn [String.eqb orb].
    rewrite TrimRight_app_trimmed by apply TrimRight_spaces.
    by rewrite Hkr, Hrest.
Qed.

Lemma TrimLeft_in_cutset (d : ascii) (s cutset : string) :
  strings.in_cutset d s = false → strings.in_cutset d (strings.TrimLeft s cutset) = false.
Proof.
  induction s as [|c s IH]; [done|]. simpl.
  destruct (strings.in_cutset c cutset); [|done].
  intros [_ Hs]%orb_false_elim. by apply IH.
Qed.

(** A blank line, a comment and a line without "=" leave the map as it is. *)
Lemma parseEnvLine_skip (env : gmap string string) (text : string) :
  strings.Trim text " " = ""
  ∨ strings.HasPrefix (strings.Trim text " ") "#" = true
  ∨ strings.Contains text "=" = false →
  parseEnvLine env text = env.
Proof.
  unfold parseEnvLine. intros [->|[->|Hsep]]; [done|by rewrite orb_true_r|].
  destruct (_ || _); [done|].
  destruct (SplitN_2_length (strings.Trim text " ") "=") as [[a ->]|(a & b & Hab)]; [done|].
  apply SplitN_2_cut in Hab as [Hl _].
  rewrite Contains_byte in Hsep.
  apply (TrimRight_in_cutset " "), (TrimLeft_in_cutset _ _ " ") in Hsep.
  fold (strings.Trim text " ") in Hsep.
  rewrite Hl, in_cutset_app in Hsep. simpl in Hsep.
  by destruct (strings.in_cutset "=" a).
Qed.

(** ** The ignore filter, as a set of lower-cased names *)

Lemma isIgnored_true (L : list string) (N : string) :
  isIgnored L N = true ↔ strings.ToLower N ∈ strings.ToLower <$> L.
Proof.
  rewrite list_elem_of_fmap.
  assert (isIgnored L N = ignored_loop L N) as -> by by destruct L.
  rewrite ignored_loop_true. split; intros (i & Hi & Hl); exists i; done.
Qed.

(** * What a whole fetch guarantees *)

(** ** The buckets *)

(** X1: whatever a fetch returns, with an error or without, the bucket of a
    language holds the records of the fetched edges of that language that
    are neither private nor ignored, in the order they came back; a language
    without such an edge has no bucket. *)
Theorem DefaultFetchStars_buckets (ignored : list string) (script : list Response)
  (user token : string) (rateLimit : Z) (w w' : World)
  (stars : gmap string (list Star)) (total : Z) (e : option error) (new : list Event) :
  DefaultFetchStars ignored script user token rateLimit w
  = Some (Return (stars, total, e), w') →
  w_trace w' = w_trace w ++ new →
  ∀ lng, stars !! lng = nonempty_bucket (bucket_of ignored lng (fetched new)).
Proof.
  intros Hrun Hnew lng.
  apply (DefaultFetchStars_lookup _ _ _ _ _ _ _ _ _ lng Hrun Hnew).
Qed.

Lemma DefaultFetchStars_buckets_witness :
  (returned Cases.run_bad_gateway).1.1 !! "Go"
  = nonempty_bucket
      (bucket_of [] "Go" (fetched (w_trace (final_world Cases.run_bad_gateway
                                              Examples.world0)))).
Proof.
  refine (DefaultFetchStars_buckets []
            [Scenario.page1; Scenario.bad_gateway; Scenario.page2] "octocat" "token" 5
            Examples.world0 (final_world Cases.run_bad_gateway Examples.world0)
            (returned Cases.run_bad_gateway).1.1 (returned Cases.run_bad_gateway).1.2
            (returned Cases.run_bad_gateway).2
            (w_trace (final_world Cases.run_bad_gateway Examples.world0)) _ _ "Go");
    vm_compute; reflexivity.
Defined.

(** X2: when [fetchAndProcessStars] returns without error on the remote
    path, the bucket of a language is a rearrangement, sorted by lower-cased
    owner/name, of the records of the fetched edges of that language that
    are neither private nor ignored; a language without such an edge has no
    bucket. *)
Theorem fetchAndProcessStars_buckets (ignored : list string) (script : list Response)
  (config : Config) (w w' : World) (stars : gmap string (list Star)) (total : Z)
  (new : list Event) :
  Test config = false →
  fetchAndProcessStars ignored script config w = Some (Return (stars, total, None), w') →
  w_trace w' = w_trace w ++ new →
  ∀ lng,
    match bucket_of ignored lng (fetched new) with
    | [] => stars !! lng = None
    | fetched_bucket =>
        ∃ bucket, stars !! lng = Some bucket
                  ∧ bucket ≡ₚ fetched_bucket
                  ∧ StronglySorted name_le bucket
    end.
Proof.
  intros Htest Hrun Hnew lng.
  rewrite (fetchAndProcessStars_lookup _ _ _ _ _ _ _ _ lng Htest Hrun Hnew).
  destruct (bucket_of ignored lng (fetched new)) as [|s b]; [done|].
  unfold nonempty_bucket; cbn [fmap option_fmap option_map].
  eexists. split; [done|]. split.
  - apply sort_Slice_perm.
  - apply sort_by_name_sorted.
Qed.

Lemma fetchAndProcessStars_buckets_witness :
  match bucket_of [] "Go" (fetched (w_trace (final_world Cases.run_generate
                                               Examples.world0))) with
  | [] => (returned Cases.run_generate).1.1 !! "Go" = None
  | fetched_bucket =>
      ∃ bucket, (returned Cases.run_generate).1.1 !! "Go" = Some bucket
                ∧ bucket ≡ₚ fetched_bucket
                ∧ StronglySorted name_le bucket
  end.
Proof.
  refine (fetchAndProcessStars_buckets [] [Scenario.page1; Scenario.page2]
            Examples.config0 Examples.world0
            (final_world Cases.run_generate Examples.world0)
            (returned Cases.run_generate).1.1 (returned Cases.run_generate).1.2
            (w_trace (final_world Cases.run_generate Examples.world0)) _ _ _ "Go");
    vm_compute; reflexivity.
Defined.

(** X3: when [fetchAndProcessStars] returns without error on the remote
    path, a record is in the bucket of a language exactly when it is the
    record of a fetched edge that is not private, whose owner/name is not
    ignored, and whose first language is that language. *)
Theorem fetchAndProcessStars_members (ignored : list string) (script : list Response)
  (config : Config) (w w' : World) (stars : gmap string (list Star)) (total : Z)
  (new : list Event) :
  Test config = false →
  fetchAndProcessStars ignored script config w = Some (Return (stars, total, None), w') →
  w_trace w' = w_trace w ++ new →
  ∀ lng s,
    (∃ bucket, stars !! lng = Some bucket ∧ s ∈ bucket) ↔
    (∃ e, e ∈ fetched new
          ∧ n_IsPrivate (e_Node e) = false
          ∧ isIgnored ignored (n_NameWithOwner (e_Node e)) = false
          ∧ determineLanguage (n_Languages (e_Node e)) = lng
          ∧ s = newStar e).
Proof.
  intros Htest Hrun Hnew lng s.
  rewrite (fetchAndProcessStars_lookup _ _ _ _ _ _ _ _ lng Htest Hrun Hnew).
  assert ((∃ e, e ∈ fetched new ∧ n_IsPrivate (e_Node e) = false
                ∧ isIgnored ignored (n_NameWithOwner (e_Node e)) = false
                ∧ determineLanguage (n_Languages (e_Node e)) = lng ∧ s = newStar e)
          ↔ s ∈ bucket_of ignored lng (fetched new)) as ->.
  { rewrite elem_of_bucket_of. unfold skipped, language_of.
    split; intros (e & He & Hrest); exists e; (split; [done|]).
    - destruct Hrest as (-> & -> & Hrest). done.
    - destruct Hrest as (Hs & Hrest). apply orb_false_elim in Hs as [? ?]. done. }
  destruct (bucket_of ignored lng (fetched new)) as [|s0 b] eqn:Hb;
    unfold nonempty_bucket; cbn [fmap option_fmap option_map].
  - split; [by intros (? & ? & ?)|]. by intros ?%elem_of_nil.
  - split.
    + intros (bucket & [= <-] & Hs).
      by apply (elem_of_Permutation_proper s _ _ (sort_Slice_perm lessByName (s0 :: b))).
    + intros Hs. eexists. split; [done|].
      by apply (elem_of_Permutation_proper s _ _ (sort_Slice_perm lessByName (s0 :: b))).
Qed.

Lemma fetchAndProcessStars_members_witness :
  (∃ bucket, (returned Cases.run_generate).1.1 !! "Go" = Some bucket
             ∧ newStar Examples.go ∈ bucket) ↔
  (∃ e, e ∈ fetched (w_trace (final_world Cases.run_generate Examples.world0))
        ∧ n_IsPrivate (e_Node e) = false
        ∧ isIgnored [] (n_NameWithOwner (e_Node e)) = false
        ∧ determineLanguage (n_Languages (e_Node e)) = "Go"
        ∧ newStar Examples.go = newStar e).
Proof.
  refine (fetchAndProcessStars_members [] [Scenario.page1; Scenario.page2]
            Examples.config0 Examples.world0
            (final_world Cases.run_generate Examples.world0)
            (returned Cases.run_generate).1.1 (returned Cases.run_generate).1.2
            (w_trace (final_world Cases.run_generate Examples.world0)) _ _ _
            "Go" (newStar Examples.go));
    vm_compute; reflexivity.
Defined.

(** X14: the count and the buckets of the [generate] pipeline on two pages, one
    private repository left out. *)
Lemma fetchAndProcessStars_count_witness :
  ∃ new : list Event,
    w_trace (final_world Cases.run_generate Examples.world0)
    = w_trace Examples.world0 ++ new
    ∧ bucket_count (returned Cases.run_generate).1.1
      = length (included [] (fetched new))
    ∧ (returned Cases.run_generate).1.2
      = int_wrap (Z.of_nat (bucket_count (returned Cases.run_generate).1.1)).
Proof.
  refine (fetchAndProcessStars_count [] [Scenario.page1; Scenario.page2]
            Examples.config0 Examples.world0
            (final_world Cases.run_generate Examples.world0)
            (returned Cases.run_generate).1.1 (returned Cases.run_generate).1.2 _ _);
    vm_compute; reflexivity.
Defined.

(** ** Queries, cursors and the clock *)

(** X4: every query of a fetch leaves within the three minutes that the
    fetch gives itself, counted from its start, however long the answers
    and the quota sleeps take. *)
Theorem DefaultFetchStars_queries_in_time (ignored : list string) (script : list Response)
  (user token : string) (rateLimit : Z) (w w' : World) (res : Result)
  (new : list Event) (c : string) (t : Time) :
  DefaultFetchStars ignored script user token rateLimit w = Some (Return res, w') →
  w_trace w' = w_trace w ++ new →
  EvQuery c t ∈ new →
  w_now w <= t < w_now w + minute * 3.
Proof.
  intros [_ Hrun]%DefaultFetchStars_Run Hnew Hin.
  pose proof (Run_queries _ _ _ _ _ _ _ _ _ Hrun Hnew) as Hall.
  rewrite Forall_forall in Hall. apply (Hall (EvQuery c t) Hin).
Qed.

Lemma DefaultFetchStars_queries_in_time_witness :
  w_now Examples.world0 <= Examples.start + minute
  < w_now Examples.world0 + minute * 3.
Proof.
  refine (DefaultFetchStars_queries_in_time []
            [Scenario.quota (Examples.start + minute); Scenario.only_page]
            "octocat" "token" 5 Examples.world0
            (final_world Scenario.run_after_quota Examples.world0)
            (returned Scenario.run_after_quota)
            (w_trace (final_world Scenario.run_after_quota Examples.world0))
            "" (Examples.start + minute) _ _ _).
  - vm_compute. reflexivity.
  - vm_compute. reflexivity.
  - apply (list_elem_of_lookup_2 _ 3). vm_compute. reflexivity.
Defined.

(** X5: every query of a fetch carries the end cursor of the last page that
    came back before it, the empty cursor if none did: no page is skipped
    and, after a quota error, the same page is asked for again. *)
Theorem DefaultFetchStars_cursors (ignored : list string) (script : list Response)
  (user token : string) (rateLimit : Z) (w w' : World) (res : Result)
  (before after : list Event) (c : string) (t : Time) :
  DefaultFetchStars ignored script user token rateLimit w = Some (Return res, w') →
  w_trace w' = w_trace w ++ before ++ EvQuery c t :: after →
  c = cursor_after "" before.
Proof.
  intros [_ Hrun]%DefaultFetchStars_Run Hnew.
  apply (Run_cursors _ _ _ _ _ _ _ _ _ _ _ _ Hrun Hnew).
Qed.

Lemma DefaultFetchStars_cursors_witness :
  "c1" = cursor_after ""
           (take 3 (w_trace (final_world Cases.run_two_pages Examples.world0))).
Proof.
  refine (DefaultFetchStars_cursors [] [Scenario.page1; Scenario.page2]
            "octocat" "token" 5 Examples.world0
            (final_world Cases.run_two_pages Examples.world0)
            (returned Cases.run_two_pages)
            (take 3 (w_trace (final_world Cases.run_two_pages Examples.world0)))
            (drop 4 (w_trace (final_world Cases.run_two_pages Examples.world0)))
            "c1" (Examples.start + second) _ _);
    vm_compute; reflexivity.
Defined.

(** ** How a fetch ends *)

(** X6: a fetch that returns without error ends with a query, its page,
    which reports no further page, and the save of that page's window. *)
Theorem DefaultFetchStars_success_end (ignored : list string) (script : list Response)
  (user token : string) (rateLimit : Z) (w w' : World)
  (stars : gmap string (list Star)) (total : Z) (new : list Event) :
  DefaultFetchStars ignored script user token rateLimit w
  = Some (Return (stars, total, None), w') →
  w_trace w' = w_trace w ++ new →
  ∃ before c t q,
    new = before ++ [EvQuery c t; EvReply q; EvSave (q_RateLimit q)]
    ∧ HasNextPage (q_PageInfo q) = false.
Proof.
  intros [_ Hrun]%DefaultFetchStars_Run Hnew.
  by apply (Run_success_end _ _ _ _ _ _ _ _ _ Hrun Hnew).
Qed.

Lemma DefaultFetchStars_success_end_witness :
  ∃ before c t q,
    w_trace (final_world Cases.run_two_pages Examples.world0)
    = before ++ [EvQuery c t; EvReply q; EvSave (q_RateLimit q)]
    ∧ HasNextPage (q_PageInfo q) = false.
Proof.
  refine (DefaultFetchStars_success_end [] [Scenario.page1; Scenario.page2]
            "octocat" "token" 5 Examples.world0
            (final_world Cases.run_two_pages Examples.world0)
            (returned Cases.run_two_pages).1.1 (returned Cases.run_two_pages).1.2
            (w_trace (final_world Cases.run_two_pages Examples.world0)) _ _);
    vm_compute; reflexivity.
Defined.

(** X7: a page that reports no further page is the last thing a fetch asks
    for: only the save of its window follows, and the fetch returns without
    error. *)
Theorem DefaultFetchStars_last_page_ends (ignored : list string) (script : list Response)
  (user token : string) (rateLimit : Z) (w w' : World)
  (stars : gmap string (list Star)) (total : Z) (e : option error)
  (before after : list Event) (q : Query) :
  DefaultFetchStars ignored script user token rateLimit w
  = Some (Return (stars, total, e), w') →
  w_trace w' = w_trace w ++ before ++ EvReply q :: after →
  HasNextPage (q_PageInfo q) = false →
  after = [EvSave (q_RateLimit q)] ∧ e = None.
Proof.
  intros [_ Hrun]%DefaultFetchStars_Run Hnew Hlast.
  apply (Run_last_page_ends _ _ _ _ _ _ _ _ _ _ _ Hrun Hnew Hlast).
Qed.

Lemma DefaultFetchStars_last_page_ends_witness :
  drop 5 (w_trace (final_world Scenario.run_after_quota Examples.world0))
  = [EvSave (q_RateLimit (Examples.page [Examples.tools; Examples.secret] "" false 4999))]
  ∧ (returned Scenario.run_after_quota).2 = None.
Proof.
  refine (DefaultFetchStars_last_page_ends []
            [Scenario.quota (Examples.start + minute); Scenario.only_page]
            "octocat" "token" 5 Examples.world0
            (final_world Scenario.run_after_quota Examples.world0)
            (returned Scenario.run_after_quota).1.1 (returned Scenario.run_after_quota).1.2
            (returned Scenario.run_after_quota).2
            (take 4 (w_trace (final_world Scenario.run_after_quota Examples.world0)))
            (drop 5 (w_trace (final_world Scenario.run_after_quota Examples.world0)))
            (Examples.page [Examples.tools; Examples.secret] "" false 4999) _ _ _);
    vm_compute; reflexivity.
Defined.

(** X15: the fetch whose second query fails for good. *)
Lemma DefaultFetchStars_failure_last_witness :
  drop 5 (w_trace (final_world Cases.run_bad_gateway Examples.world0)) = []
  ∧ (returned Cases.run_bad_gateway).2 = Some (ErrQuery "502 Bad Gateway")
  ∧ (returned Cases.run_bad_gateway).1
    = addEdges [] (fetched (take 3 (w_trace (final_world Cases.run_bad_gateway
                                               Examples.world0)))) (∅, 0).
Proof.
  refine (DefaultFetchStars_failure_last []
            [Scenario.page1; Scenario.bad_gateway; Scenario.page2]
            "octocat" "token" 5 Examples.world0
            (final_world Cases.run_bad_gateway Examples.world0)
            (returned Cases.run_bad_gateway).1.1 (returned Cases.run_bad_gateway).1.2
            (returned Cases.run_bad_gateway).2
            (take 3 (w_trace (final_world Cases.run_bad_gateway Examples.world0)))
            (drop 5 (w_trace (final_world Cases.run_bad_gateway Examples.world0)))
            "c1" (Examples.start + second) (ErrQuery "502 Bad Gateway")
            (Examples.page [Examples.tools; Examples.secret] "c1" true 4999) _ _ _);
    vm_compute; reflexivity.
Defined.

(** X16: the fetch whose first query runs into the quota. *)
Lemma DefaultFetchStars_quota_retry_witness :
  ∃ from rest,
    drop 2 (w_trace (final_world Scenario.run_after_quota Examples.world0))
    = EvSleep from (wake from (Examples.start + minute)) :: rest
    ∧ Examples.start <= from
    ∧ ((rest = [] ∧ ∃ err, (returned Scenario.run_after_quota).2 = Some err
                           ∧ is_timeout err = true)
       ∨ (∃ t' rest', rest = EvQuery "" t' :: rest'
                      ∧ wake from (Examples.start + minute) <= t'
                        < w_now Examples.world0 + minute * 3)).
Proof.
  refine (DefaultFetchStars_quota_retry []
            [Scenario.quota (Examples.start + minute); Scenario.only_page]
            "octocat" "token" 5 Examples.world0
            (final_world Scenario.run_after_quota Examples.world0)
            (returned Scenario.run_after_quota).1.1 (returned Scenario.run_after_quota).1.2
            (returned Scenario.run_after_quota).2
            []
            (drop 2 (w_trace (final_world Scenario.run_after_quota Examples.world0)))
            "" Examples.start (ErrQuery "API rate limit exceeded for user ID 1")
            {| q_RateLimit := {| Limit := 5000; Remaining := 0;
                                 ResetAt := Examples.start + minute |};
               q_IsOverLimit := false; q_TotalCount := 0; q_Edges := [];
               q_PageInfo := {| EndCursor := ""; HasNextPage := false |} |} _ _ _);
    vm_compute; reflexivity.
Defined.

(** ** The files *)

(** X8: after a fetch in a writable directory, the rate-limit state file
    holds the window of the last page that came back, provided that window
    can be stored: [loadRateLimitInfo] returns it without error. *)
Theorem DefaultFetchStars_state_file (ignored : list string) (script : list Response)
  (user token : string) (rateLimit : Z) (w w' : World) (res : Result)
  (new : list Event) (q : Query) :
  DefaultFetchStars ignored script user token rateLimit w = Some (Return res, w') →
  w_trace w' = w_trace w ++ new →
  fs_readonly (w_fs w) = false →
  last_reply None new = Some q →
  storable (q_RateLimit q) →
  loadRateLimitInfo (w_fs w') = (q_RateLimit q, None).
Proof.
  intros [_ Hrun]%DefaultFetchStars_Run Hnew Hro Hlast Hst.
  destruct (Run_state_file _ _ _ _ _ _ _ _ _ Hrun Hnew Hro) as [_ Hfile].
  rewrite Hlast in Hfile. by apply Hfile.
Qed.

Lemma DefaultFetchStars_state_file_witness :
  loadRateLimitInfo (w_fs (final_world Cases.run_bad_gateway Examples.world0))
  = (Examples.window 4999, None).
Proof.
  refine (DefaultFetchStars_state_file []
            [Scenario.page1; Scenario.bad_gateway; Scenario.page2]
            "octocat" "token" 5 Examples.world0
            (final_world Cases.run_bad_gateway Examples.world0)
            (returned Cases.run_bad_gateway)
            (w_trace (final_world Cases.run_bad_gateway Examples.world0))
            (Examples.page [Examples.tools; Examples.secret] "c1" true 4999) _ _ _ _ _).
  - vm_compute. reflexivity.
  - vm_compute. reflexivity.
  - reflexivity.
  - vm_compute. reflexivity.
  - vm_compute. repeat split; discriminate || reflexivity.
Defined.

(** X9: a fetch, however it ends, touches no file but the rate-limit state
    file, and leaves the directory writable or read-only as it was. *)
Theorem DefaultFetchStars_files (ignored : list string) (script : list Response)
  (user token : string) (rateLimit : Z) (w w' : World) (res : Outcome Result) :
  DefaultFetchStars ignored script user token rateLimit w = Some (res, w') →
  fs_readonly (w_fs w') = fs_readonly (w_fs w)
  ∧ ∀ path, path ≠ rate_limit_file →
      fs_files (w_fs w') !! path = fs_files (w_fs w) !! path.
Proof.
  intros Hrun. destruct res as [res|msg].
  - apply DefaultFetchStars_Run in Hrun as [_ Hrun].
    apply (Run_files _ _ _ _ _ _ _ _ Hrun).
  - unfold DefaultFetchStars in Hrun. destruct (rateLimit =? 0); [by simplify_eq|].
    by destruct (fetchLoop _ _ _ _ _ _ _) as [[]|].
Qed.

Lemma DefaultFetchStars_files_witness :
  fs_readonly (w_fs (final_world Cases.run_two_pages Examples.world0))
  = fs_readonly (w_fs Examples.world0)
  ∧ ∀ path, path ≠ rate_limit_file →
      fs_files (w_fs (final_world Cases.run_two_pages Examples.world0)) !! path
      = fs_files (w_fs Examples.world0) !! path.
Proof.
  refine (DefaultFetchStars_files [] [Scenario.page1; Scenario.page2]
            "octocat" "token" 5 Examples.world0
            (final_world Cases.run_two_pages Examples.world0)
            (Return (returned Cases.run_two_pages)) _).
  vm_compute. reflexivity.
Defined.

(** ** The ignore list *)

(** X10: only the set of lower-cased entries of the ignore list and the
    lower-cased name matter to [isIgnored]: order, repetition and letter
    case of the entries, and the letter case of the name, do not. *)
Theorem isIgnored_case_order (L1 L2 : list string) (N1 N2 : string) :
  list_to_set (C := gset string) (strings.ToLower <$> L1)
  = list_to_set (strings.ToLower <$> L2) →
  strings.ToLower N1 = strings.ToLower N2 →
  isIgnored L1 N1 = isIgnored L2 N2.
Proof.
  intros HL HN. apply Bool.eq_true_iff_eq.
  rewrite !isIgnored_true, HN.
  by rewrite <-!(elem_of_list_to_set (C := gset string)), HL.
Qed.

Lemma isIgnored_case_order_witness :
  isIgnored ["Golang/Go"; "octocat/secret"] "golang/GO"
  = isIgnored ["OCTOCAT/Secret"; "golang/go"; "GOLANG/GO"] "Golang/go".
Proof.
  apply (isIgnored_case_order ["Golang/Go"; "octocat/secret"]
           ["OCTOCAT/Secret"; "golang/go"; "GOLANG/GO"] "golang/GO" "Golang/go").
  - vm_compute. reflexivity.
  - reflexivity.
Defined.

(** ** The [.env] file *)

(** X11: whatever the lines of the file are, every key that [parseEnvFile]
    stores is free of spaces at its ends, of "=" and of a leading "#", and
    every value is free of spaces at its ends. *)
Theorem parseEnvFile_entries (opened : option (list string)) (k v : string) :
  parseEnvFile opened !! k = Some v → env_key k ∧ env_value v.
Proof.
  destruct opened as [lines|]; simpl; [|by rewrite lookup_empty].
  assert (∀ env : gmap string string,
            (∀ k v, env !! k = Some v → env_key k ∧ env_value v) →
            ∀ k v, fold_left parseEnvLine lines env !! k = Some v
                   → env_key k ∧ env_value v) as Hfold.
  { induction lines as [|text lines IH]; intros env Henv; simpl; [done|].
    by apply IH, parseEnvLine_entries. }
  apply Hfold. intros k' v'. by rewrite lookup_empty.
Qed.

Lemma parseEnvFile_entries_witness : env_key "GITHUB_TOKEN" ∧ env_value "abc=".
Proof.
  apply (parseEnvFile_entries (Some Cases.dotenv) "GITHUB_TOKEN" "abc=").
  vm_compute. reflexivity.
Defined.

(** X12: a last line [key = value], with any number of spaces around the
    key, the "=" and the value, sets the key to the value, replacing what
    the lines before it gave for that key; the value may be empty and may
    hold "=" and inner spaces. *)
Theorem parseEnvFile_assignment (lines : list string) (k v : string) (n1 n2 n3 n4 : nat) :
  env_key k → env_value v →
  parseEnvFile
    (Some (lines ++ [spaces n1 +:+ k +:+ spaces n2 +:+ "=" +:+ spaces n3 +:+ v
                     +:+ spaces n4]))
  = <[k := v]> (parseEnvFile (Some lines)).
Proof.
  intros Hk Hv. simpl. rewrite fold_left_app. simpl.
  by apply parseEnvLine_assignment.
Qed.

Lemma parseEnvFile_assignment_witness :
  parseEnvFile (Some (Cases.dotenv ++ [spaces 1 +:+ "GITHUB_USER" +:+ spaces 0 +:+ "="
                                       +:+ spaces 2 +:+ "j = m" +:+ spaces 3]))
  = <["GITHUB_USER" := "j = m"]> (parseEnvFile (Some Cases.dotenv)).
Proof.
  apply (parseEnvFile_assignment Cases.dotenv "GITHUB_USER" "j = m" 1 0 2 3).
  - repeat split; reflexivity.
  - repeat split; reflexivity.
Defined.

(** X13: a blank line, a line whose first byte after the leading spaces is
    "#", and a line without "=" change nothing, wherever they stand in the
    file. *)
Theorem parseEnvFile_skips (before after : list string) (text : string) :
  strings.Trim text " " = ""
  ∨ strings.HasPrefix (strings.Trim text " ") "#" = true
  ∨ strings.Contains text "=" = false →
  parseEnvFile (Some (before ++ text :: after)) = parseEnvFile (Some (before ++ after)).
Proof.
  intros Hskip. simpl. rewrite !fold_left_app. simpl.
  by rewrite parseEnvLine_skip.
Qed.

Lemma parseEnvFile_skips_witness :
  parseEnvFile (Some (["A=1"] ++ "  # B=2" :: ["C=3"]))
  = parseEnvFile (Some (["A=1"] ++ ["C=3"])).
Proof.
  apply (parseEnvFile_skips ["A=1"] ["C=3"] "  # B=2").
  right. left. reflexivity.
Defined.
